(** * Verification of the family-tree data model and auto-layout of
    [arbol_genealogico] ([main.py]).

    Shallow embedding of [FamilyModel] (a Python list of person dicts with
    in-place mutation through [get]) and of [MainWindow.auto_layout].

    Modelling conventions:
    - [self.people] is a [list person]; records always carry every key that
      [add_person] writes, so [p.get("hijos", [])] is [hijos p].
    - [self.get(i)] returns the first record whose id is [i]; mutating the
      returned dict is [modify i f], which rewrites that same first record.
    - relationship lists are values: the lists supplied by a caller are not
      shared with lists already in the store (the only callers build fresh
      lists).
    - [save()] only writes the file; it does not change [self.people] and is
      left out.
    - Python floats of the layout are rationals [Q]: every coordinate is a
      half-integer times 200, exactly representable as a double. *)

From Stdlib Require Import List ZArith QArith String Bool Lia.
Import ListNotations.
Open Scope Z_scope.

(** ** Data model *)

Record person := mk_person {
  id : Z;
  nombre : string;
  fecha_nacimiento : string;
  padres : list Z;
  hijos : list Z;
  descripcion : string;
  x : option Q;
  y : option Q
}.

Definition store := list person.

(** The two relationship keys ["padres"] and ["hijos"] of a person dict. *)
Inductive rel_key := Padres | Hijos.

Definition rel_key_eq_dec (k k' : rel_key) : {k = k'} + {k <> k'}.
Proof. decide equality. Defined.

Definition field (k : rel_key) (p : person) : list Z :=
  match k with Padres => padres p | Hijos => hijos p end.

(** [p[k] = l] *)
Definition set_field (k : rel_key) (p : person) (l : list Z) : person :=
  match k with
  | Padres => mk_person (id p) (nombre p) (fecha_nacimiento p) l (hijos p)
                (descripcion p) (x p) (y p)
  | Hijos => mk_person (id p) (nombre p) (fecha_nacimiento p) (padres p) l
                (descripcion p) (x p) (y p)
  end.

(** The key holding the back-reference: a parent lists its child under
    ["hijos"], the child lists the parent under ["padres"]. *)
Definition recip (k : rel_key) : rel_key :=
  match k with Padres => Hijos | Hijos => Padres end.

(** Python [x in l]. *)
Definition mem (v : Z) (l : list Z) : bool := existsb (Z.eqb v) l.

(** Python [l.remove(v)]: removes the first occurrence (the code only calls
    it after checking [v in l], so the [ValueError] branch is never taken). *)
Fixpoint remove_first (v : Z) (l : list Z) : list Z :=
  match l with
  | [] => []
  | a :: l' => if Z.eqb a v then l' else a :: remove_first v l'
  end.

(** [FamilyModel.get]: [next((p for p in self.people if p.get("id") == id_), None)] *)
Fixpoint get (id_ : Z) (people : store) : option person :=
  match people with
  | [] => None
  | p :: ps => if Z.eqb (id p) id_ then Some p else get id_ ps
  end.

(** In-place mutation of the dict returned by [self.get(id_)]. *)
Fixpoint modify (id_ : Z) (f : person -> person) (people : store) : store :=
  match people with
  | [] => []
  | p :: ps => if Z.eqb (id p) id_ then f p :: ps else p :: modify id_ f ps
  end.

(** [FamilyModel.generate_id]:
    [max((p.get("id", 0) for p in self.people), default=0) + 1] *)
Definition generate_id (people : store) : Z :=
  match map id people with
  | [] => 0
  | i :: is => fold_left Z.max is i
  end + 1.

(** The reciprocal fix-up of one target, as written in the loops of
    [add_person] and [update_person]:
    [t = self.get(tid); if t and x not in t.get(k, []): t.setdefault(k, []).append(x)] *)
Definition add_ref (k : rel_key) (v : Z) (people : store) (tid : Z) : store :=
  match get tid people with
  | Some t =>
      if negb (mem v (field k t))
      then modify tid (fun r => set_field k r (field k r ++ [v])) people
      else people
  | None => people
  end.

(** [t = self.get(tid); if t and x in t.get(k, []): t[k].remove(x)] *)
Definition del_ref (k : rel_key) (v : Z) (people : store) (tid : Z) : store :=
  match get tid people with
  | Some t =>
      if mem v (field k t)
      then modify tid (fun r => set_field k r (remove_first v (field k r))) people
      else people
  | None => people
  end.

(** [FamilyModel.add_person]; [parents]/[children] are [Optional[List[int]]]
    and [parents or []] maps [None] (and [[]]) to [[]]. Returns the new id
    and the new store. *)
Definition add_person (name dob description : string)
    (parents children : option (list Z)) (people : store) : Z * store :=
  let new_id := generate_id people in
  let person0 := mk_person new_id name dob
                   (match parents with Some l => l | None => [] end)
                   (match children with Some l => l | None => [] end)
                   description None None in
  let s1 := people ++ [person0] in
  (* for pid in person["padres"]: ... p["hijos"].append(new_id) *)
  let s2 := fold_left (add_ref Hijos new_id) (padres person0) s1 in
  (* for cid in person["hijos"]: the list as it is after the first loop *)
  let cur_hijos := match get new_id s2 with Some q => hijos q | None => [] end in
  let s3 := fold_left (add_ref Padres new_id) cur_hijos s2 in
  (new_id, s3).

(** A keyword argument of [update_person(id_, **kwargs)]: absent from
    [kwargs], present with value [None], or present with a value. *)
Inductive kwarg (A : Type) := Omitted | PyNone | Given (v : A).
Arguments Omitted {A}.
Arguments PyNone {A}.
Arguments Given {A} v.

(** [k in kwargs and kwargs[k] is not None] *)
Definition supplied {A} (k : kwarg A) : option A :=
  match k with Given v => Some v | _ => None end.

Record kwargs := mk_kwargs {
  kw_nombre : kwarg string;
  kw_fecha_nacimiento : kwarg string;
  kw_descripcion : kwarg string;
  kw_padres : kwarg (list Z);
  kw_hijos : kwarg (list Z)
}.

(** [for k in ("nombre", "fecha_nacimiento", "descripcion"): ...] *)
Definition update_scalars (kw : kwargs) (p : person) : person :=
  let opt {A} (k : kwarg A) (old : A) :=
    match supplied k with Some v => v | None => old end in
  mk_person (id p) (opt (kw_nombre kw) (nombre p))
    (opt (kw_fecha_nacimiento kw) (fecha_nacimiento p)) (padres p) (hijos p)
    (opt (kw_descripcion kw) (descripcion p)) (x p) (y p).

(** One relationship block of [update_person], for key [k] of the record
    [p] (id [id_]) and back-references under [recip k]:
    [for old in list(p.get(k, [])): if old not in new: (remove backref)];
    [p[k] = new]; [for t in new: (add backref)]. *)
Definition replace_links (k : rel_key) (id_ : Z) (new : list Z) (people : store) : store :=
  let old := match get id_ people with Some q => field k q | None => [] end in
  let s1 := fold_left (fun st o => if negb (mem o new) then del_ref (recip k) id_ st o else st)
              old people in
  let s2 := modify id_ (fun r => set_field k r new) s1 in
  fold_left (add_ref (recip k) id_) new s2.

(** [FamilyModel.update_person]: returns the boolean result and the store. *)
Definition update_person (id_ : Z) (kw : kwargs) (people : store) : bool * store :=
  match get id_ people with
  | None => (false, people)
  | Some p =>
      let s1 := modify id_ (update_scalars kw) people in
      let s2 := match supplied (kw_padres kw) with
                | Some new_parents => replace_links Padres (id p) new_parents s1
                | None => s1 end in
      let s3 := match supplied (kw_hijos kw) with
                | Some new_children => replace_links Hijos (id p) new_children s2
                | None => s2 end in
      (true, s3)
  end.

(** [for other in self.people: if id_ in other["padres"]: other["padres"].remove(id_) ...] *)
Definition unlink (id_ : Z) (other : person) : person :=
  let o1 := if mem id_ (padres other)
            then set_field Padres other (remove_first id_ (padres other)) else other in
  if mem id_ (hijos o1) then set_field Hijos o1 (remove_first id_ (hijos o1)) else o1.

(** [FamilyModel.delete_person] *)
Definition delete_person (id_ : Z) (people : store) : bool * store :=
  match get id_ people with
  | None => (false, people)
  | Some _ =>
      let s1 := map (unlink id_) people in
      (true, filter (fun q => negb (Z.eqb (id q) id_)) s1)
  end.

(** ** Auto-layout ([MainWindow.auto_layout]) *)

(** A Python dict built by a comprehension over [people], as an association
    list in insertion order; [d.get(k, default)] sees the last binding of
    [k], since a later key overwrites an earlier one. *)
Definition dict_get {A} (d : list (Z * A)) (k : Z) (default : A) : A :=
  fold_left (fun acc kv => if Z.eqb (fst kv) k then snd kv else acc) d default.

(** [id_to_children = {p["id"]: list(p.get("hijos", [])) for p in people}] *)
Definition id_to_children (people : store) : list (Z * list Z) :=
  map (fun p => (id p, hijos p)) people.

(** [roots = [p["id"] for p in people if not p.get("padres")]], falling back
    to every id when that list is empty. *)
Definition roots (people : store) : list Z :=
  match map id (filter (fun p => match padres p with [] => true | _ => false end) people) with
  | [] => map id people
  | rs => rs
  end.

(** The body of [for nid in current: visited.add(nid); for c in ...: if c not
    in visited and c not in next_level: next_level.append(c)]. *)
Fixpoint scan_level (ch : list (Z * list Z)) (current visited next_level : list Z)
    : list Z * list Z :=
  match current with
  | [] => (visited, next_level)
  | nid :: rest =>
      let visited' := nid :: visited in
      let next' := fold_left
                     (fun nl c => if negb (mem c visited') && negb (mem c nl)
                                  then nl ++ [c] else nl)
                     (dict_get ch nid []) next_level in
      scan_level ch rest visited' next'
  end.

(** [while current: levels[level] = current; ...; current = next_level].
    [levels] is a dict keyed [0, 1, 2, ...] in insertion order, i.e. a list
    indexed by the level. The loop is run on fuel; [None] means the fuel
    ran out before [current] became empty. *)
Fixpoint bfs_levels (fuel : nat) (ch : list (Z * list Z)) (current visited : list Z)
    : option (list (list Z)) :=
  match current with
  | [] => Some []
  | _ :: _ =>
      match fuel with
      | O => None
      | S fuel' =>
          let (visited', next_level) := scan_level ch current visited [] in
          match bfs_levels fuel' ch next_level visited' with
          | Some ls => Some (current :: ls)
          | None => None
          end
      end
  end.

(** Fuel: every id enters at most two consecutive levels. *)
Definition layout_fuel (people : store) : nat :=
  2 * (List.length people + List.length (flat_map hijos people)) + 1.

(** The ids of [U] not in [V]: the loop's progress measure counts, with
    [U] every id the store names, those not yet visited and those not yet
    visited or queued. *)
Definition outside (U V : list Z) : nat := List.length (filter (fun u => negb (mem u V)) U).

Definition layout_universe (people : store) : list Z := map id people ++ flat_map hijos people.

Definition layout_levels (people : store) : option (list (list Z)) :=
  bfs_levels (layout_fuel people) (id_to_children people) (roots people) [].

Definition x_gap : Q := 200.
Definition y_gap : Z := 200.

(** [for i, nid in enumerate(ids): x = (i - (n - 1) / 2) * x_gap; y = lvl * y_gap]:
    the coordinates computed for one level, in order. *)
Definition assign_level (lvl : nat) (ids : list Z) : list (Z * Q * Z) :=
  let n := Z.of_nat (List.length ids) in
  map (fun '(i, nid) =>
         (nid, ((inject_Z (Z.of_nat i) - inject_Z (n - 1) / 2) * x_gap)%Q,
          Z.of_nat lvl * y_gap))
      (combine (seq 0 (List.length ids)) ids).

(** [for lvl, ids in levels.items(): ... node = self.node_map.get(nid); if node:
    node.setPos(x, y)]; [node_map] holds one node per person of the store.
    The result is the sequence of [setPos] calls. *)
Fixpoint assign_levels (present : Z -> bool) (lvl : nat) (levels : list (list Z))
    : list (Z * Q * Z) :=
  match levels with
  | [] => []
  | ids :: ls => filter (fun c => present (fst (fst c))) (assign_level lvl ids)
                 ++ assign_levels present (S lvl) ls
  end.

Definition in_node_map (people : store) (nid : Z) : bool :=
  existsb (fun p => Z.eqb (id p) nid) people.

Definition auto_layout (people : store) : option (list (Z * Q * Z)) :=
  match layout_levels people with
  | Some levels => Some (assign_levels (in_node_map people) 0 levels)
  | None => None
  end.

(** Position of a node after all [setPos] calls: the last call wins. *)
Definition final_pos (calls : list (Z * Q * Z)) (nid : Z) : option (Q * Z) :=
  fold_left (fun acc c => if Z.eqb (fst (fst c)) nid then Some (snd (fst c), snd c) else acc)
    calls None.

(** ** The scene ([MainWindow.reload_scene], [save_positions]) *)

(** [node.setPos(p.get("x") or 0, p.get("y") or 0)]: [None] and [0.0] are
    falsy and give [0]. *)
Definition or_zero (v : option Q) : Q :=
  match v with Some q => if Qeq_bool q 0 then 0%Q else q | None => 0%Q end.

Definition node_pos (p : person) : Q * Q := (or_zero (x p), or_zero (y p)).

(** [for p in people: src = node_map.get(p["id"]); for child_id in
    p.get("hijos", []): dst = node_map.get(child_id); if dst: (edge src ->
    dst)]; [node_map] has a node for every id of the store, so [src] is
    always found. An edge is recorded as the pair of ids it joins. *)
Definition scene_edges (people : store) : list (Z * Z) :=
  flat_map (fun p => map (fun c => (id p, c)) (filter (in_node_map people) (hijos p))) people.

(** [person["x"] = pos.x(); person["y"] = pos.y()] *)
Definition set_pos (p : person) (xy : Q * Q) : person :=
  mk_person (id p) (nombre p) (fecha_nacimiento p) (padres p) (hijos p)
    (descripcion p) (Some (fst xy)) (Some (snd xy)).

(** [for id_, node in self.node_map.items(): pos = node.pos();
    person = self.model.get(id_); if person is not None: ...]. [keys] are the
    keys of [node_map] (distinct, as dict keys are) and [pos] gives the
    position of the node of each key. *)
Definition save_positions (keys : list Z) (pos : Z -> Q * Q) (people : store) : store :=
  fold_left (fun st k => match get k st with
                         | Some _ => modify k (fun r => set_pos r (pos k)) st
                         | None => st end) keys people.

(** ** Callers of the model ([NodeItem.contextMenuEvent], [EditPersonDialog]) *)

(** The "Agregar hijo" action on the node of the record [pid]:
    [child_id = self.model.add_person(name)];
    [if child_id not in self.person.get("hijos", []): self.person.setdefault("hijos", []).append(child_id)]
    (the same steps as [add_ref]); [child = self.model.get(child_id)];
    [child.setdefault("padres", []).append(self.person["id"])].
    [self.person] is the record of id [pid] in the store. *)
Definition add_child (pid : Z) (name : string) (people : store) : Z * store :=
  let (child_id, s1) := add_person name "" "" None None people in
  let s2 := add_ref Hijos child_id s1 pid in
  let s3 := match get child_id s2 with
            | Some _ => modify child_id (fun r => set_field Padres r (padres r ++ [pid])) s2
            | None => s2 end in
  (child_id, s3).

(** The records offered by the dialog's two selectors:
    [[p for p in self.model.people if p["id"] != self.person["id"]]]. *)
Definition dialog_candidates (pid : Z) (people : store) : list Z :=
  map id (filter (fun p => negb (Z.eqb (id p) pid)) people).

(** [EditPersonDialog.accept]: [self.model.update_person(self.person["id"],
    nombre=name, fecha_nacimiento=dob, descripcion=desc, padres=parents,
    hijos=children)], where [name], [dob], [desc] are the stripped texts of
    the fields and [parents], [children] the ids of the selected items. *)
Definition edit_accept (pid : Z) (name dob desc : string) (parents children : list Z)
    (people : store) : bool * store :=
  update_person pid (mk_kwargs (Given name) (Given dob) (Given desc) (Given parents) (Given children))
    people.

(** ** Properties stated over the store *)

(** The record with id [a] lists [b] under key [k]. *)
Definition linked (s : store) (k : rel_key) (a b : Z) : Prop :=
  exists r, get a s = Some r /\ In b (field k r).

Definition present (s : store) (a : Z) : Prop := get a s <> None.

(** Ids are unique (I3). *)
Definition uniq_ids (s : store) : Prop := NoDup (map id s).

(** Relationship lists hold no duplicates. *)
Definition nodup_links (s : store) : Prop :=
  forall r, In r s -> NoDup (padres r) /\ NoDup (hijos r).

(** I1: for every pair of records, [b] is a child of [a] iff [a] is a parent of [b]. *)
Definition I1 (s : store) : Prop :=
  forall ra rb, In ra s -> In rb s -> (In (id rb) (hijos ra) <-> In (id ra) (padres rb)).

(** I2: every id in a relationship list names a record of the store. *)
Definition I2 (s : store) : Prop :=
  forall r b, In r s -> In b (padres r ++ hijos r) -> get b s <> None.

(** The well-formedness the operations maintain besides I1. *)
Definition wf (s : store) : Prop := uniq_ids s /\ nodup_links s /\ I2 s.

(** Arguments of a call that names relationships: duplicate-free and only
    ids of records present before the call. *)
Definition ids_ok (s : store) (l : list Z) : Prop :=
  NoDup l /\ forall b, In b l -> get b s <> None.

Definition opt_ok (s : store) (o : option (list Z)) : Prop :=
  match o with Some l => ids_ok s l | None => True end.

(** The three mutating operations, for sequences of calls. *)
Inductive op :=
| OpAdd (name dob description : string) (parents children : option (list Z))
| OpUpdate (id_ : Z) (kw : kwargs)
| OpDelete (id_ : Z).

Definition run_op (o : op) (s : store) : store :=
  match o with
  | OpAdd n d de ps cs => snd (add_person n d de ps cs s)
  | OpUpdate i kw => snd (update_person i kw s)
  | OpDelete i => snd (delete_person i s)
  end.

Definition valid_op (s : store) (o : op) : Prop :=
  match o with
  | OpAdd _ _ _ ps cs => opt_ok s ps /\ opt_ok s cs
  | OpUpdate _ kw => opt_ok s (supplied (kw_padres kw)) /\ opt_ok s (supplied (kw_hijos kw))
  | OpDelete _ => True
  end.

(** The stores observed after each call of a sequence. *)
Fixpoint trace (s : store) (ops : list op) : list store :=
  match ops with
  | [] => []
  | o :: os => let s' := run_op o s in s' :: trace s' os
  end.

Fixpoint valid_run (s : store) (ops : list op) : Prop :=
  match ops with
  | [] => True
  | o :: os => valid_op s o /\ valid_run (run_op o s) os
  end.

(** [kwargs] with every explicit [None] dropped. *)
Definition omit_none {A} (k : kwarg A) : kwarg A :=
  match k with PyNone => Omitted | k' => k' end.

Definition omit_nones (kw : kwargs) : kwargs :=
  mk_kwargs (omit_none (kw_nombre kw)) (omit_none (kw_fecha_nacimiento kw))
    (omit_none (kw_descripcion kw)) (omit_none (kw_padres kw)) (omit_none (kw_hijos kw)).

Definition all_none : kwargs := mk_kwargs PyNone PyNone PyNone PyNone PyNone.

(** Relationship lists of one record, used for duplicate-freedom. *)
Definition nodup_at (s : store) (k : rel_key) (a : Z) : Prop :=
  forall r, get a s = Some r -> NoDup (field k r).

(** I1 and I2 read through [get], as the code reads the store. *)
Definition I1_at (s : store) (k : rel_key) : Prop :=
  forall a b, present s a -> present s b -> (linked s k a b <-> linked s (recip k) b a).

Definition I2_at (s : store) : Prop :=
  forall k a b, linked s k a b -> present s b.

Definition nodup_all (s : store) : Prop := forall k a, nodup_at s k a.

(** The scalar fields of a record. *)
Definition scalars (r : person) : string * string * string :=
  (nombre r, fecha_nacimiento r, descripcion r).

(** The relationship lists of a record. *)
Definition rels (r : person) : list Z * list Z := (padres r, hijos r).

(** [sum(xs)] over rationals. *)
Definition qsum (l : list Q) : Q := fold_right Qplus 0%Q l.

(** ** Concrete stores used by the examples *)

Definition person_of (i : Z) (name : string) (pa hi : list Z) : person :=
  mk_person i name "" pa hi "" None None.

(** Ana and Bea are created, Ana is then given the parent id 2 before any
    record 2 exists, and Bea is created next (and receives id 2). *)
Definition ops_dangling_parent : list op :=
  [OpAdd "Ana" "" "" None None;
   OpUpdate 1 (mk_kwargs Omitted Omitted Omitted (Given [2]) Omitted);
   OpAdd "Bea" "" "" None None].

(** A run whose relationship arguments are all present and duplicate-free. *)
Definition ops_valid : list op :=
  [OpAdd "Ana" "" "" None None;
   OpAdd "Bea" "" "" (Some [1]) None;
   OpAdd "Carla" "" "" None (Some [2]);
   OpUpdate 2 (mk_kwargs Omitted Omitted Omitted (Given [3]) (Given []));
   OpDelete 1].

(** Grandmother 1, her daughter 2, a father 3 with no recorded parents, and
    the child 4 of 2 and 3. *)
Definition family4 : store :=
  [person_of 1 "Juana" [] [2]; person_of 2 "Maria" [1] [4];
   person_of 3 "Pedro" [] [4]; person_of 4 "Lucas" [2; 3] []].

(** ** Basic lemmas on [get] and [modify] *)

Lemma mem_In v l : mem v l = true <-> In v l.
Proof.
  unfold mem; rewrite existsb_exists; split.
  - intros [w [Hw He]]; apply Z.eqb_eq in He; subst; exact Hw.
  - intros H; exists v; split; [exact H | apply Z.eqb_refl].
Qed.

Lemma mem_false v l : mem v l = false <-> ~ In v l.
Proof.
  rewrite <- mem_In; destruct (mem v l); split; congruence.
Qed.

Lemma remove_first_In v l b : In b (remove_first v l) -> In b l.
Proof.
  induction l as [|a l IH]; simpl; [tauto|].
  destruct (Z.eqb a v); simpl; intuition.
Qed.

Lemma remove_first_keep v l b : In b l -> b <> v -> In b (remove_first v l).
Proof.
  induction l as [|a l IH]; simpl; [tauto|].
  destruct (Z.eqb_spec a v); simpl; intros [H|H] Hne; subst; intuition.
Qed.

Lemma remove_first_gone v l : NoDup l -> ~ In v (remove_first v l).
Proof.
  induction l as [|a l IH]; simpl; [tauto|].
  intros Hnd; inversion Hnd; subst.
  destruct (Z.eqb_spec a v); subst; [exact H1|].
  simpl; intros [H|H]; [congruence | exact (IH H2 H)].
Qed.

Lemma remove_first_NoDup v l : NoDup l -> NoDup (remove_first v l).
Proof.
  induction l as [|a l IH]; simpl; [tauto|].
  intros Hnd; inversion Hnd; subst.
  destruct (Z.eqb a v); [exact H2|].
  constructor; [intros H; apply H1, (remove_first_In v) , H | exact (IH H2)].
Qed.

Lemma NoDup_snoc (l : list Z) v : NoDup l -> ~ In v l -> NoDup (l ++ [v]).
Proof.
  intros Hl Hv; apply NoDup_app; [exact Hl | constructor; [tauto | constructor] |].
  intros a Ha [Hb|[]]; subst; contradiction.
Qed.

Lemma get_Some s j r : get j s = Some r -> In r s /\ id r = j.
Proof.
  induction s as [|p s IH]; simpl; [discriminate|].
  destruct (Z.eqb_spec (id p) j); [intros H; inversion H; subst; auto|].
  intros H; destruct (IH H); auto.
Qed.

Lemma get_In s r : uniq_ids s -> In r s -> get (id r) s = Some r.
Proof.
  unfold uniq_ids; induction s as [|p s IH]; simpl; [tauto|].
  intros Hnd Hin; inversion Hnd; subst.
  destruct Hin as [<-|Hin]; [rewrite Z.eqb_refl; reflexivity|].
  destruct (Z.eqb_spec (id p) (id r)) as [He|He]; [|exact (IH H2 Hin)].
  exfalso; apply H1; rewrite He; apply in_map; exact Hin.
Qed.

Lemma get_modify i f s j :
  (forall r, id (f r) = id r) ->
  get j (modify i f s) = if Z.eqb j i then option_map f (get i s) else get j s.
Proof.
  intros Hf; induction s as [|p s IH]; simpl.
  - destruct (Z.eqb j i); reflexivity.
  - destruct (Z.eqb_spec (id p) i) as [Hp|Hp]; simpl.
    + rewrite Hf, Hp; destruct (Z.eqb_spec i j), (Z.eqb_spec j i); subst;
        try reflexivity; congruence.
    + rewrite IH; destruct (Z.eqb_spec j i); subst.
      * destruct (Z.eqb_spec (id p) i); [congruence|reflexivity].
      * reflexivity.
Qed.

Lemma map_id_modify i f s :
  (forall r, id (f r) = id r) -> map id (modify i f s) = map id s.
Proof.
  intros Hf; induction s as [|p s IH]; simpl; [reflexivity|].
  destruct (Z.eqb (id p) i); simpl; [rewrite Hf | rewrite IH]; reflexivity.
Qed.

Lemma id_set_field k r l : id (set_field k r l) = id r.
Proof. destruct k; reflexivity. Qed.

Lemma field_set_same k r l : field k (set_field k r l) = l.
Proof. destruct k; reflexivity. Qed.

Lemma field_set_other k k' r l : k' <> k -> field k' (set_field k r l) = field k' r.
Proof. destruct k, k'; simpl; congruence. Qed.

Lemma recip_neq k : recip k <> k.
Proof. destruct k; discriminate. Qed.

Lemma recip_recip k : recip (recip k) = k.
Proof. destruct k; reflexivity. Qed.

(** ** How each primitive mutation changes the links *)

Lemma linked_modify t f s k a b :
  (forall r, id (f r) = id r) ->
  linked (modify t f s) k a b <->
  (a <> t /\ linked s k a b) \/
  (a = t /\ exists r, get t s = Some r /\ In b (field k (f r))).
Proof.
  intros Hf; unfold linked; rewrite get_modify by exact Hf.
  destruct (Z.eqb_spec a t) as [->|Hne].
  - destruct (get t s) as [r|]; simpl; split.
    + intros [r' [E H]]; inversion E; subst; right; eauto.
    + intros [[Hc _]|[_ [r' [E H]]]]; [congruence|inversion E; subst; eauto].
    + intros [r' [E _]]; discriminate.
    + intros [[Hc _]|[_ [r' [E _]]]]; [congruence|discriminate].
  - split; [intros H; left; auto|intros [[_ H]|[Hc _]]; [exact H|congruence]].
Qed.

Lemma present_modify t f s a :
  (forall r, id (f r) = id r) -> present (modify t f s) a <-> present s a.
Proof.
  intros Hf; unfold present; rewrite get_modify by exact Hf.
  destruct (Z.eqb_spec a t) as [->|]; [destruct (get t s); simpl|]; split; congruence.
Qed.


Lemma nodup_at_modify t f s k a :
  (forall r, id (f r) = id r) ->
  (forall r, get t s = Some r -> a = t -> NoDup (field k (f r))) ->
  (a <> t -> nodup_at s k a) ->
  nodup_at (modify t f s) k a.
Proof.
  intros Hf Ht Ho r; rewrite get_modify by exact Hf.
  destruct (Z.eqb_spec a t) as [->|Hne].
  - destruct (get t s) eqn:E; simpl; intros H; inversion H; subst; eauto.
  - intros H; exact (Ho Hne r H).
Qed.

Ltac key_cases k k' :=
  destruct (rel_key_eq_dec k' k) as [->|?];
  [rewrite ?field_set_same in * | rewrite ?field_set_other in * by assumption].

Lemma linked_add_ref k v s t k' a b :
  linked (add_ref k v s t) k' a b <->
  linked s k' a b \/ (k' = k /\ a = t /\ b = v /\ present s t).
Proof.
  unfold add_ref, present.
  destruct (get t s) as [r|] eqn:E.
  - destruct (mem v (field k r)) eqn:M; simpl.
    + split; [tauto|]. intros [H|(-> & -> & -> & _)]; [exact H|].
      exists r; split; [exact E|apply mem_In; exact M].
    + rewrite linked_modify by (intros; apply id_set_field).
      destruct (Z.eqb_spec a t) as [->|Hne].
      * split.
        -- intros [[Hc _]|[_ [r' [E' H]]]]; [congruence|].
           rewrite E in E'; inversion E'; subst.
           key_cases k k'; [rewrite in_app_iff in H; destruct H as [H|[H|[]]]|].
           ++ left; exists r'; auto.
           ++ right; subst; repeat split; congruence.
           ++ left; exists r'; auto.
        -- intros [[r' [E' H]]|(-> & _ & -> & _)]; right; split; auto;
             exists r; split; auto.
           ++ rewrite E in E'; inversion E'; subst.
              key_cases k k'; [apply in_app_iff; left|]; exact H.
           ++ rewrite field_set_same; apply in_app_iff; right; left; reflexivity.
      * split; [intros [[_ H]|[Hc _]]; [left; exact H|congruence]|].
        intros [H|(_ & Hc & _)]; [left; split; auto|congruence].
  - split; [tauto|]. intros [H|(_ & _ & _ & Hc)]; [exact H|congruence].
Qed.

Lemma present_add_ref k v s t a : present (add_ref k v s t) a <-> present s a.
Proof.
  unfold add_ref; destruct (get t s); [destruct (negb _)|]; try tauto.
  apply present_modify; intros; apply id_set_field.
Qed.

Lemma nodup_at_add_ref k v s t k' a :
  nodup_at s k' a -> nodup_at (add_ref k v s t) k' a.
Proof.
  intros Hnd; unfold add_ref.
  destruct (get t s) as [r|] eqn:E; [|exact Hnd].
  destruct (mem v (field k r)) eqn:M; simpl; [exact Hnd|].
  apply nodup_at_modify; [intros; apply id_set_field| |intros _; exact Hnd].
  intros r' E' ->; rewrite E in E'; inversion E'; subst.
  key_cases k k'; [|exact (Hnd _ E)].
  apply NoDup_snoc; [exact (Hnd _ E)|apply mem_false; exact M].
Qed.

Lemma linked_del_ref_sub k v s t k' a b :
  linked (del_ref k v s t) k' a b -> linked s k' a b.
Proof.
  unfold del_ref; destruct (get t s) as [r|] eqn:E; [|tauto].
  destruct (mem v (field k r)); [|tauto].
  rewrite linked_modify by (intros; apply id_set_field).
  intros [[_ H]|[-> [r' [E' H]]]]; [exact H|].
  exists r'; split; [exact E'|]. key_cases k k'; [|exact H].
  exact (remove_first_In _ _ _ H).
Qed.

Lemma linked_del_ref_keep k v s t k' a b :
  linked s k' a b -> ~ (k' = k /\ a = t /\ b = v) -> linked (del_ref k v s t) k' a b.
Proof.
  unfold del_ref; intros Hl Hn; destruct (get t s) as [r|] eqn:E; [|exact Hl].
  destruct (mem v (field k r)); [|exact Hl].
  rewrite linked_modify by (intros; apply id_set_field).
  destruct (Z.eqb_spec a t) as [->|Hne]; [right|left; auto].
  destruct Hl as [r' [E' H]]; split; [reflexivity|]; exists r'; split; [exact E'|].
  key_cases k k'; [|exact H].
  apply remove_first_keep; [exact H|]; intros ->; apply Hn; auto.
Qed.

Lemma linked_del_ref_gone k v s t :
  nodup_at s k t -> ~ linked (del_ref k v s t) k t v.
Proof.
  unfold del_ref; intros Hnd; destruct (get t s) as [r|] eqn:E.
  - destruct (mem v (field k r)) eqn:M.
    + rewrite linked_modify by (intros; apply id_set_field).
      intros [[Hc _]|[_ [r' [E' H]]]]; [congruence|].
      rewrite E in E'; inversion E'; subst; rewrite field_set_same in H.
      exact (remove_first_gone _ _ (Hnd _ E) H).
    + intros [r' [E' H]]; rewrite E in E'; inversion E'; subst.
      apply mem_false in M; contradiction.
  - intros [r' [E' _]]; congruence.
Qed.

Lemma present_del_ref k v s t a : present (del_ref k v s t) a <-> present s a.
Proof.
  unfold del_ref; destruct (get t s); [destruct (mem _ _)|]; try tauto.
  apply present_modify; intros; apply id_set_field.
Qed.

Lemma nodup_at_del_ref k v s t k' a :
  nodup_at s k' a -> nodup_at (del_ref k v s t) k' a.
Proof.
  intros Hnd; unfold del_ref.
  destruct (get t s) as [r|] eqn:E; [|exact Hnd].
  destruct (mem v (field k r)) eqn:M; [|exact Hnd].
  apply nodup_at_modify; [intros; apply id_set_field| |intros _; exact Hnd].
  intros r' E' ->; rewrite E in E'; inversion E'; subst.
  key_cases k k'; [|exact (Hnd _ E)].
  apply remove_first_NoDup; exact (Hnd _ E).
Qed.

Lemma linked_set k t l s k' a b :
  linked (modify t (fun r => set_field k r l) s) k' a b <->
  (~ (k' = k /\ a = t) /\ linked s k' a b) \/ (k' = k /\ a = t /\ present s t /\ In b l).
Proof.
  rewrite linked_modify by (intros; apply id_set_field); unfold present.
  destruct (Z.eqb_spec a t) as [->|Hne].
  - split.
    + intros [[Hc _]|[_ [r [E H]]]]; [congruence|].
      key_cases k k'; [right; repeat split; congruence|].
      left; split; [tauto|exists r; auto].
    + intros [[Hn [r [E H]]]|(-> & _ & Hp & Hb)].
      * right; split; auto; exists r; split; auto.
        key_cases k k'; [tauto|exact H].
      * right; split; auto; destruct (get t s) as [r|] eqn:E; [|congruence].
        exists r; split; auto; rewrite field_set_same; exact Hb.
  - split; [intros [[_ H]|[Hc _]]; [left; split; [tauto|exact H]|congruence]|].
    intros [[_ H]|(_ & Hc & _)]; [left; auto|congruence].
Qed.

Lemma nodup_at_set k t l s k' a :
  (k' = k -> a = t -> NoDup l) -> (~ (k' = k /\ a = t) -> nodup_at s k' a) ->
  nodup_at (modify t (fun r => set_field k r l) s) k' a.
Proof.
  intros H1 H2; apply nodup_at_modify; [intros; apply id_set_field| |].
  - intros r E ->; key_cases k k'; [exact (H1 eq_refl eq_refl)|].
    apply (H2 ltac:(tauto) r E).
  - intros Hne; apply H2; tauto.
Qed.

(** *** The loops *)

Lemma present_fold_add k v L s a :
  present (fold_left (add_ref k v) L s) a <-> present s a.
Proof.
  revert s; induction L as [|t L IH]; intros s; simpl; [tauto|].
  rewrite IH; apply present_add_ref.
Qed.

Lemma linked_fold_add k v L s k' a b :
  linked (fold_left (add_ref k v) L s) k' a b <->
  linked s k' a b \/ (k' = k /\ In a L /\ b = v /\ present s a).
Proof.
  revert s; induction L as [|t L IH]; intros s; simpl; [intuition|].
  rewrite IH, linked_add_ref, present_add_ref.
  split; intros H; intuition (subst; auto).
Qed.

Lemma nodup_at_fold_add k v L s k' a :
  nodup_at s k' a -> nodup_at (fold_left (add_ref k v) L s) k' a.
Proof.
  revert s; induction L as [|t L IH]; intros s H; simpl; [exact H|].
  apply IH, nodup_at_add_ref, H.
Qed.

Section RemoveLoop.
(** The removal loop of [update_person]:
    [for o in old: if o not in new: (del_ref k v at o)]. *)
Variables (k : rel_key) (v : Z) (new : list Z).

Let step := fun st o => if negb (mem o new) then del_ref k v st o else st.

Lemma present_fold_del old s a :
  present (fold_left step old s) a <-> present s a.
Proof.
  revert s; induction old as [|o old IH]; intros s; simpl; [tauto|].
  rewrite IH; unfold step; destruct (negb _); [apply present_del_ref|tauto].
Qed.

Lemma nodup_at_fold_del old s k' a :
  nodup_at s k' a -> nodup_at (fold_left step old s) k' a.
Proof.
  revert s; induction old as [|o old IH]; intros s H; simpl; [exact H|].
  apply IH; unfold step; destruct (negb _); [apply nodup_at_del_ref|]; exact H.
Qed.

Lemma linked_fold_del_sub old s k' a b :
  linked (fold_left step old s) k' a b -> linked s k' a b.
Proof.
  revert s; induction old as [|o old IH]; intros s H; simpl in *; [exact H|].
  apply IH in H; unfold step in H; destruct (negb _); [|exact H].
  exact (linked_del_ref_sub _ _ _ _ _ _ _ H).
Qed.

Lemma linked_fold_del_keep old s k' a b :
  linked s k' a b -> ~ (k' = k /\ b = v /\ In a old /\ ~ In a new) ->
  linked (fold_left step old s) k' a b.
Proof.
  revert s; induction old as [|o old IH]; intros s H Hn; simpl; [exact H|].
  apply IH; [|intros (? & ? & ? & ?); apply Hn; simpl; tauto].
  unfold step; destruct (mem o new) eqn:M; simpl; [exact H|].
  apply linked_del_ref_keep; [exact H|].
  intros (-> & -> & ->); apply Hn; apply mem_false in M; simpl; tauto.
Qed.

Lemma linked_fold_del_gone old s a :
  In a old -> ~ In a new -> nodup_at s k a -> ~ linked (fold_left step old s) k a v.
Proof.
  revert s; induction old as [|o old IH]; intros s Hin Hnew Hnd; simpl; [tauto|].
  destruct (Z.eq_dec o a) as [->|Hne].
  - intros H; apply linked_fold_del_sub in H; revert H; unfold step.
    apply mem_false in Hnew; rewrite Hnew; simpl.
    apply linked_del_ref_gone, Hnd.
  - destruct Hin as [Hc|Hin]; [congruence|].
    apply IH; [exact Hin|exact Hnew|].
    unfold step; destruct (negb _); [apply nodup_at_del_ref|]; exact Hnd.
Qed.

End RemoveLoop.

(** *** One relationship block of [update_person] *)

Section ReplaceLinks.
Variables (k : rel_key) (p : Z) (new : list Z) (s : store) (q : person).
Hypothesis Hq : get p s = Some q.

Let s' := replace_links k p new s.

Lemma present_replace a : present s' a <-> present s a.
Proof.
  unfold s', replace_links; rewrite Hq; cbv zeta.
  rewrite present_fold_add, present_modify by (intros; apply id_set_field).
  apply present_fold_del.
Qed.

Lemma present_p : present s p.
Proof. unfold present; rewrite Hq; discriminate. Qed.

(** [p[k]] becomes exactly [new]; other records keep their [k] lists. *)
Lemma linked_replace_own a b :
  linked s' k a b <-> (a <> p /\ linked s k a b) \/ (a = p /\ In b new).
Proof.
  unfold s', replace_links; rewrite Hq; cbv zeta.
  rewrite linked_fold_add, linked_set.
  pose proof (recip_neq k) as Hr.
  assert (Hs : forall a b, linked (fold_left (fun st o => if negb (mem o new)
             then del_ref (recip k) p st o else st) (field k q) s) k a b <-> linked s k a b).
  { intros a' b'; split; [apply linked_fold_del_sub|].
    intros H; apply linked_fold_del_keep; [exact H|intros (Hc & _); congruence]. }
  rewrite Hs, present_fold_del; pose proof present_p as Hpp.
  split.
  - intros [[[Hn H]|(_ & -> & _ & Hb)]|(Hc & _)]; [|right; auto|congruence].
    left; split; [intros ->; tauto|exact H].
  - intros [[Hn H]|[-> Hb]]; left; [left; split; [tauto|exact H]|right; auto].
Qed.

(** Back-references under [recip k] only lose [p] at former partners
    that are not in [new], and only gain [p] at the partners in [new]. *)
Lemma linked_replace_recip_sub a b :
  linked s' (recip k) a b -> linked s (recip k) a b \/ (b = p /\ In a new /\ present s a).
Proof.
  unfold s', replace_links; rewrite Hq; cbv zeta.
  rewrite linked_fold_add, linked_set, present_modify by (intros; apply id_set_field).
  rewrite present_fold_del.
  intros [[[_ H]|(Hc & _)]|(_ & Ha & -> & Hp)].
  - left; exact (linked_fold_del_sub _ _ _ _ _ _ _ _ H).
  - exfalso; exact (recip_neq k Hc).
  - apply present_fold_del in Hp; right; auto.
Qed.

Lemma linked_replace_recip_keep a b :
  linked s (recip k) a b -> ~ (b = p /\ In a (field k q) /\ ~ In a new) ->
  linked s' (recip k) a b.
Proof.
  intros H Hn; unfold s', replace_links; rewrite Hq; cbv zeta.
  rewrite linked_fold_add, linked_set; left; left; split.
  - intros (Hc & _); exact (recip_neq k Hc).
  - apply linked_fold_del_keep; [exact H|tauto].
Qed.

Lemma linked_replace_recip_new a :
  In a new -> present s a -> linked s' (recip k) a p.
Proof.
  intros Ha Hp; unfold s', replace_links; rewrite Hq; cbv zeta.
  rewrite linked_fold_add, present_modify by (intros; apply id_set_field).
  rewrite present_fold_del; right; auto.
Qed.

Lemma linked_replace_recip_gone a :
  In a (field k q) -> ~ In a new -> nodup_at s (recip k) a -> ~ linked s' (recip k) a p.
Proof.
  intros Ha Hn Hnd; unfold s', replace_links; rewrite Hq; cbv zeta.
  rewrite linked_fold_add, linked_set.
  intros [[[_ H]|(Hc & _)]|(_ & Ha' & _)].
  - exact (linked_fold_del_gone _ _ _ _ _ _ Ha Hn Hnd H).
  - exact (recip_neq k Hc).
  - exact (Hn Ha').
Qed.

Lemma nodup_at_replace k' a :
  (k' = k -> a = p -> NoDup new) -> (~ (k' = k /\ a = p) -> nodup_at s k' a) ->
  nodup_at s' k' a.
Proof.
  intros H1 H2; unfold s', replace_links; rewrite Hq; cbv zeta.
  apply nodup_at_fold_add, nodup_at_set; [exact H1|].
  intros Hn; apply nodup_at_fold_del, H2, Hn.
Qed.

End ReplaceLinks.

(** ** Invariants in terms of [get] *)


Lemma key_split k k' : k' = k \/ k' = recip k.
Proof. destruct k, k'; auto. Qed.

Lemma I1_at_recip s k : I1_at s k -> I1_at s (recip k).
Proof.
  intros H a b Ha Hb; rewrite recip_recip; symmetry; apply H; assumption.
Qed.

Lemma I1_at_any s k k' : I1_at s k -> I1_at s k'.
Proof.
  intros H; destruct (key_split k k') as [->| ->]; [exact H|exact (I1_at_recip _ _ H)].
Qed.

Section ReplacePreserves.
Variables (k : rel_key) (p : Z) (new : list Z) (s : store) (q : person).
Hypothesis Hq : get p s = Some q.

Lemma I1_replace : nodup_all s -> I1_at s k -> I1_at (replace_links k p new s) k.
Proof.
  intros Hnd H1 a b Ha Hb; rewrite present_replace in Ha, Hb by exact Hq.
  rewrite (linked_replace_own _ _ _ _ _ Hq).
  destruct (Z.eq_dec a p) as [->|Hne].
  - split.
    + intros [[Hc _]|[_ Hb']]; [congruence|].
      exact (linked_replace_recip_new _ _ _ _ _ Hq _ Hb' Hb).
    + intros Hl; right; split; [reflexivity|].
      destruct (in_dec Z.eq_dec b new) as [Hin|Hout]; [exact Hin|exfalso].
      destruct (linked_replace_recip_sub _ _ _ _ _ Hq _ _ Hl) as [Hs|(_ & Hin & _)];
        [|exact (Hout Hin)].
      apply (H1 p b Ha Hb) in Hs; destruct Hs as [r [E Hr]].
      rewrite Hq in E; inversion E; subst.
      exact (linked_replace_recip_gone _ _ _ _ _ Hq _ Hr Hout (Hnd _ _) Hl).
  - split.
    + intros [[_ Hl]|[Hc _]]; [|congruence].
      apply linked_replace_recip_keep with (q := q); [exact Hq| |tauto].
      apply (H1 a b Ha Hb), Hl.
    + intros Hl; left; split; [exact Hne|].
      destruct (linked_replace_recip_sub _ _ _ _ _ Hq _ _ Hl) as [Hs|(Hc & _)];
        [|congruence].
      apply (H1 a b Ha Hb), Hs.
Qed.

Lemma I2_replace :
  I2_at s -> (forall b, In b new -> present s b) -> I2_at (replace_links k p new s).
Proof.
  intros H2 Hnew k' a b Hl; rewrite present_replace by exact Hq.
  destruct (key_split k k') as [->| ->].
  - apply (linked_replace_own _ _ _ _ _ Hq) in Hl.
    destruct Hl as [[_ Hl]|[_ Hb]]; [exact (H2 _ _ _ Hl)|exact (Hnew _ Hb)].
  - destruct (linked_replace_recip_sub _ _ _ _ _ Hq _ _ Hl) as [Hl'|(-> & _)];
      [exact (H2 _ _ _ Hl')|exact (present_p _ _ _ Hq)].
Qed.

Lemma nodup_replace : nodup_all s -> NoDup new -> nodup_all (replace_links k p new s).
Proof.
  intros Hnd Hn k' a; apply nodup_at_replace with (q := q);
    [exact Hq|intros _ _; exact Hn|intros _; apply Hnd].
Qed.

End ReplacePreserves.

(** *** Ids are never changed by the link updates *)

Lemma map_id_fold {A} (f : store -> A -> store) L s :
  (forall st o, map id (f st o) = map id st) -> map id (fold_left f L s) = map id s.
Proof.
  intros Hf; revert s; induction L as [|o L IH]; intros s; simpl; [reflexivity|].
  rewrite IH; apply Hf.
Qed.

Lemma map_id_add_ref k v s t : map id (add_ref k v s t) = map id s.
Proof.
  unfold add_ref; destruct (get t s); [destruct (negb _)|]; try reflexivity.
  apply map_id_modify; intros; apply id_set_field.
Qed.

Lemma map_id_del_ref k v s t : map id (del_ref k v s t) = map id s.
Proof.
  unfold del_ref; destruct (get t s); [destruct (mem _ _)|]; try reflexivity.
  apply map_id_modify; intros; apply id_set_field.
Qed.

Lemma map_id_replace k p new s : map id (replace_links k p new s) = map id s.
Proof.
  unfold replace_links; cbv zeta.
  rewrite map_id_fold by apply map_id_add_ref.
  rewrite map_id_modify by (intros; apply id_set_field).
  apply map_id_fold; intros st o; destruct (negb _); [apply map_id_del_ref|reflexivity].
Qed.

(** *** The scalar fields *)

Lemma id_update_scalars kw r : id (update_scalars kw r) = id r.
Proof. reflexivity. Qed.

Lemma field_update_scalars kw r k : field k (update_scalars kw r) = field k r.
Proof. destruct k; reflexivity. Qed.

Lemma linked_scalars id_ kw s k a b :
  linked (modify id_ (update_scalars kw) s) k a b <-> linked s k a b.
Proof.
  rewrite linked_modify by apply id_update_scalars.
  destruct (Z.eq_dec a id_) as [->|Hne].
  - split; [intros [[Hc _]|[_ [r [E H]]]]; [congruence|exists r; rewrite <- (field_update_scalars kw); auto]|].
    intros [r [E H]]; right; split; auto; exists r; rewrite field_update_scalars; auto.
  - split; [intros [[_ H]|[Hc _]]; [exact H|congruence]|intros H; left; auto].
Qed.

Lemma present_scalars id_ kw s a :
  present (modify id_ (update_scalars kw) s) a <-> present s a.
Proof. apply present_modify, id_update_scalars. Qed.

Lemma nodup_scalars id_ kw s : nodup_all s -> nodup_all (modify id_ (update_scalars kw) s).
Proof.
  intros H k a; apply nodup_at_modify; [apply id_update_scalars| |intros; apply H].
  intros r E _; rewrite field_update_scalars; exact (H k id_ r E).
Qed.

Lemma I2_scalars id_ kw s : I2_at s -> I2_at (modify id_ (update_scalars kw) s).
Proof.
  intros H k a b Hl; apply present_scalars; rewrite linked_scalars in Hl; exact (H _ _ _ Hl).
Qed.

Lemma I1_scalars id_ kw s k : I1_at s k -> I1_at (modify id_ (update_scalars kw) s) k.
Proof.
  intros H a b Ha Hb; rewrite present_scalars in Ha, Hb; rewrite !linked_scalars; apply H; auto.
Qed.

(** *** [update_person] *)

Lemma opt_ok_transfer s s' o :
  (forall a, present s' a <-> present s a) -> opt_ok s o -> opt_ok s' o.
Proof.
  destruct o as [l|]; simpl; [|tauto].
  intros Hp [Hnd Hin]; split; [exact Hnd|intros b Hb; apply Hp, Hin, Hb].
Qed.

Lemma stage_inv k p o s :
  present s p -> opt_ok s o -> nodup_all s -> I2_at s ->
  let s' := match o with Some l => replace_links k p l s | None => s end in
  (forall a, present s' a <-> present s a) /\ map id s' = map id s /\
  nodup_all s' /\ I2_at s' /\ (I1_at s Hijos -> I1_at s' Hijos).
Proof.
  intros Hp Ho Hnd H2; destruct o as [l|]; cbv zeta; [|tauto].
  destruct (get p s) as [q|] eqn:E; [|congruence].
  destruct Ho as [Hl Hin].
  split; [intros a; apply (present_replace _ _ _ _ _ E)|].
  split; [apply map_id_replace|].
  split; [exact (nodup_replace _ _ _ _ _ E Hnd Hl)|].
  split; [exact (I2_replace _ _ _ _ _ E H2 Hin)|].
  intros H1; apply (I1_at_any _ k); apply (I1_replace _ _ _ _ _ E Hnd).
  exact (I1_at_any _ Hijos k H1).
Qed.

Lemma update_person_inv id_ kw s :
  opt_ok s (supplied (kw_padres kw)) -> opt_ok s (supplied (kw_hijos kw)) ->
  nodup_all s -> I2_at s ->
  let s' := snd (update_person id_ kw s) in
  map id s' = map id s /\ nodup_all s' /\ I2_at s' /\ (I1_at s Hijos -> I1_at s' Hijos).
Proof.
  intros Hop Hoh Hnd H2; unfold update_person.
  destruct (get id_ s) as [p|] eqn:E; [|cbv zeta; simpl; auto].
  destruct (get_Some _ _ _ E) as [_ Hid]; rewrite Hid; cbv zeta; simpl snd.
  set (s1 := modify id_ (update_scalars kw) s).
  assert (Hp1 : present s1 id_) by (apply present_scalars; unfold present; congruence).
  assert (Hpr1 : forall a, present s1 a <-> present s a) by (intros; apply present_scalars).
  destruct (stage_inv Padres id_ (supplied (kw_padres kw)) s1 Hp1
              (opt_ok_transfer _ _ _ Hpr1 Hop) (nodup_scalars _ _ _ Hnd) (I2_scalars _ _ _ H2))
    as (Hpr2 & Hm2 & Hnd2 & H22 & H12).
  set (s2 := match supplied (kw_padres kw) with Some l => replace_links Padres id_ l s1
             | None => s1 end) in *.
  assert (Hp2 : present s2 id_) by (apply Hpr2, Hp1).
  assert (Hpr2' : forall a, present s2 a <-> present s a) by (intros a; rewrite Hpr2; apply Hpr1).
  destruct (stage_inv Hijos id_ (supplied (kw_hijos kw)) s2 Hp2
              (opt_ok_transfer _ _ _ Hpr2' Hoh) Hnd2 H22)
    as (_ & Hm3 & Hnd3 & H23 & H13).
  split; [rewrite Hm3, Hm2; unfold s1; apply map_id_modify, id_update_scalars|].
  split; [exact Hnd3|split; [exact H23|]].
  intros H1; apply H13, H12, I1_scalars, H1.
Qed.

(** *** [generate_id] and [add_person] *)

Lemma fold_max_ge (l : list Z) acc :
  acc <= fold_left Z.max l acc /\ forall v, In v l -> v <= fold_left Z.max l acc.
Proof.
  revert acc; induction l as [|v l IH]; intros acc; simpl; [split; [lia|tauto]|].
  destruct (IH (Z.max acc v)) as [H1 H2]; split; [lia|].
  intros w [->|Hw]; [lia|exact (H2 w Hw)].
Qed.

Lemma fold_max_in (l : list Z) acc : In (fold_left Z.max l acc) (acc :: l).
Proof.
  revert acc; induction l as [|v l IH]; intros acc; simpl; [auto|].
  destruct (IH (Z.max acc v)) as [H|H]; [|auto].
  rewrite <- H; destruct (Z.max_spec acc v) as [[_ ->]|[_ ->]]; auto.
Qed.

Lemma generate_id_gt s r : In r s -> id r < generate_id s.
Proof.
  unfold generate_id; intros Hr; apply (in_map id) in Hr.
  destruct (map id s) as [|i is]; [contradiction|].
  destruct (fold_max_ge is i) as [H1 H2]; destruct Hr as [<-|Hr]; [lia|].
  specialize (H2 _ Hr); lia.
Qed.

Lemma get_generate_id s : get (generate_id s) s = None.
Proof.
  destruct (get (generate_id s) s) as [r|] eqn:E; [|reflexivity].
  destruct (get_Some _ _ _ E) as [Hr Hid]; apply generate_id_gt in Hr; lia.
Qed.

Lemma get_snoc s r j :
  get j (s ++ [r]) = match get j s with
                     | Some q => Some q
                     | None => if Z.eqb (id r) j then Some r else None end.
Proof.
  induction s as [|p s IH]; simpl; [reflexivity|].
  destruct (Z.eqb (id p) j); [reflexivity|exact IH].
Qed.

Lemma linked_snoc s r k a b :
  get (id r) s = None ->
  linked (s ++ [r]) k a b <-> linked s k a b \/ (a = id r /\ In b (field k r)).
Proof.
  intros Hf; unfold linked; rewrite get_snoc.
  destruct (get a s) as [q|] eqn:E.
  - split; [intros [r' [E' H]]; inversion E'; subst; left; eauto|].
    intros [[r' [E' H]]|[-> _]]; [inversion E'; subst; eauto|congruence].
  - destruct (Z.eqb_spec (id r) a) as [<-|Hne].
    + split; [intros [r' [E' H]]; inversion E'; subst; right; auto|].
      intros [[r' [E' _]]|[_ H]]; [discriminate|eauto].
    + split; [intros [r' [E' _]]; discriminate|].
      intros [[r' [E' _]]|[Hc _]]; [discriminate|congruence].
Qed.

Lemma present_snoc s r a : present (s ++ [r]) a <-> present s a \/ a = id r.
Proof.
  unfold present; rewrite get_snoc; destruct (get a s).
  - split; [intros _; left; discriminate|intros _; discriminate].
  - destruct (Z.eqb_spec (id r) a) as [->|Hne].
    + split; [intros _; right; reflexivity|intros _; discriminate].
    + split; [intros H; congruence|intros [H|H]; congruence].
Qed.

Lemma opt_ok_list s o :
  opt_ok s o ->
  NoDup (match o with Some l => l | None => [] end) /\
  forall b, In b (match o with Some l => l | None => [] end) -> present s b.
Proof. destruct o as [l|]; simpl; unfold ids_ok, present; [tauto|split; [constructor|tauto]]. Qed.

Lemma add_person_inv name dob description ps cs s :
  opt_ok s ps -> opt_ok s cs -> nodup_all s -> I2_at s ->
  let s' := snd (add_person name dob description ps cs s) in
  map id s' = map id s ++ [generate_id s] /\
  (forall a, present s' a <-> present s a \/ a = generate_id s) /\
  nodup_all s' /\ I2_at s' /\ (I1_at s Hijos -> I1_at s' Hijos).
Proof.
  intros Hps Hcs Hnd H2; unfold add_person; cbv zeta; simpl snd.
  set (n := generate_id s).
  set (np := match ps with Some l => l | None => [] end) in *.
  set (nc := match cs with Some l => l | None => [] end) in *.
  set (r0 := mk_person n name dob np nc description None None).
  destruct (opt_ok_list _ _ Hps) as [Hndp Hinp]; destruct (opt_ok_list _ _ Hcs) as [Hndc Hinc].
  fold np nc in Hndp, Hinp, Hndc, Hinc.
  assert (Hf : get n s = None) by apply get_generate_id.
  assert (Hfresh : ~ present s n) by (unfold present; congruence).
  assert (Hnp : ~ In n np) by (intros H; exact (Hfresh (Hinp _ H))).
  set (s1 := s ++ [r0]).
  set (s2 := fold_left (add_ref Hijos n) np s1).
  assert (Hpr1 : forall a, present s1 a <-> present s a \/ a = n) by (intros; apply present_snoc).
  assert (Hpr2 : forall a, present s2 a <-> present s a \/ a = n)
    by (intros; unfold s2; rewrite present_fold_add; apply Hpr1).
  assert (L1 : forall k a b, linked s1 k a b <-> linked s k a b \/ (a = n /\ In b (field k r0)))
    by (intros; apply linked_snoc; exact Hf).
  assert (L2 : forall k a b, linked s2 k a b <->
            linked s k a b \/ (a = n /\ In b (field k r0)) \/ (k = Hijos /\ In a np /\ b = n)).
  { intros k a b; unfold s2; rewrite linked_fold_add, L1, Hpr1.
    split; intros H; intuition (subst; auto). }
  destruct (get n s2) as [q|] eqn:E2.
  2:{ exfalso; assert (H : present s2 n) by (apply Hpr2; auto); exact (H E2). }
  assert (Hcur : forall b, In b (hijos q) <-> In b nc).
  { intros b; transitivity (linked s2 Hijos n b); [split; [intros H; exists q; auto|
      intros [q' [E' H]]; rewrite E2 in E'; inversion E'; subst; exact H]|].
    rewrite L2; simpl; split; [intros [H|[[_ H]|(_ & H & _)]]; [|exact H|contradiction]|tauto].
    exfalso; apply Hfresh; destruct H as [r' [E' _]]; unfold present; congruence. }
  set (s3 := fold_left (add_ref Padres n) (hijos q) s2).
  assert (Hpr3 : forall a, present s3 a <-> present s a \/ a = n)
    by (intros; unfold s3; rewrite present_fold_add; apply Hpr2).
  assert (L3 : forall k a b, linked s3 k a b <->
            linked s k a b \/ (a = n /\ In b (field k r0)) \/ (k = Hijos /\ In a np /\ b = n) \/
            (k = Padres /\ In a nc /\ b = n)).
  { intros k a b; unfold s3; rewrite linked_fold_add, L2, Hpr2, Hcur.
    split; intros H; intuition (subst; auto). }
  split.
  { unfold s3; rewrite map_id_fold by apply map_id_add_ref.
    unfold s2; rewrite map_id_fold by apply map_id_add_ref.
    unfold s1; rewrite map_app; reflexivity. }
  split; [exact Hpr3|].
  split.
  { intros k a; unfold s3; apply nodup_at_fold_add; unfold s2; apply nodup_at_fold_add.
    intros r E; unfold s1 in E; rewrite get_snoc in E.
    destruct (get a s) as [r'|] eqn:E'; [inversion E; subst; exact (Hnd k a r E')|].
    destruct (Z.eqb (id r0) a); inversion E; subst; destruct k; assumption. }
  split.
  { intros k a b Hl; apply Hpr3; apply L3 in Hl.
    destruct Hl as [H|[[_ H]|[(_ & _ & ->)|(_ & _ & ->)]]]; auto.
    - left; exact (H2 _ _ _ H).
    - left; destruct k; simpl in H; auto. }
  intros H1 a b Ha Hb; apply Hpr3 in Ha, Hb; simpl recip; rewrite !L3; simpl field.
  assert (Hns : forall k' b', ~ linked s k' n b') by
    (intros k' b' [r' [E' _]]; apply Hfresh; unfold present; congruence).
  assert (Hnt : forall k' a', ~ linked s k' a' n) by
    (intros k' a' Hl; exact (Hfresh (H2 _ _ _ Hl))).
  destruct (Z.eq_dec a n) as [->|Hna].
  - split.
    + intros [H|[[_ H]|[(_ & H & _)|(Hc & _)]]]; [destruct (Hns _ _ H)| |contradiction|discriminate].
      right; right; right; auto.
    + intros [H|[[-> H]|[(Hc & _)|(_ & H & _)]]];
        [destruct (Hnt _ _ H)|contradiction|discriminate|right; left; auto].
  - destruct (Z.eq_dec b n) as [->|Hnb].
    + split.
      * intros [H|[[Hc _]|[(_ & H & _)|(Hc & _)]]];
          [destruct (Hnt _ _ H)|congruence|right; left; auto|discriminate].
      * intros [H|[[_ H]|[(Hc & _)|(_ & H & _)]]];
          [destruct (Hns _ _ H)|right; right; left; auto|discriminate|].
        exfalso; apply Hfresh, Hinc, H.
    + destruct Ha as [Ha|]; [|congruence]; destruct Hb as [Hb|]; [|congruence].
      split.
      * intros [H|[[Hc _]|[(_ & _ & Hc)|(_ & _ & Hc)]]]; try congruence.
        left; apply (H1 a b Ha Hb), H.
      * intros [H|[[Hc _]|[(_ & _ & Hc)|(_ & _ & Hc)]]]; try congruence.
        left; apply (H1 a b Ha Hb), H.
Qed.

(** *** [delete_person] *)

Lemma remove_first_notin v l : ~ In v l -> remove_first v l = l.
Proof.
  induction l as [|a l IH]; simpl; [reflexivity|].
  intros H; destruct (Z.eqb_spec a v); [exfalso; apply H; left; auto|].
  rewrite IH; [reflexivity|tauto].
Qed.

Lemma id_unlink d r : id (unlink d r) = id r.
Proof.
  unfold unlink; destruct (mem d (padres r)), (mem d _); reflexivity.
Qed.

Lemma field_unlink d r k : field k (unlink d r) = remove_first d (field k r).
Proof.
  unfold unlink.
  destruct (mem d (padres r)) eqn:Mp; destruct k; simpl;
    match goal with
    | |- context [mem d ?l] => destruct (mem d l) eqn:Mh
    end; simpl; try reflexivity;
    try (symmetry; apply remove_first_notin, mem_false; assumption).
Qed.

Lemma get_map f s j :
  (forall r, id (f r) = id r) -> get j (map f s) = option_map f (get j s).
Proof.
  intros Hf; induction s as [|p s IH]; simpl; [reflexivity|].
  rewrite Hf; destruct (Z.eqb (id p) j); [reflexivity|exact IH].
Qed.

Lemma get_filter_id d s j :
  get j (filter (fun q => negb (Z.eqb (id q) d)) s) = if Z.eqb j d then None else get j s.
Proof.
  induction s as [|p s IH]; simpl; [destruct (Z.eqb j d); reflexivity|].
  destruct (Z.eqb_spec (id p) d) as [Hp|Hp]; simpl.
  - rewrite IH; destruct (Z.eqb_spec j d); [reflexivity|].
    destruct (Z.eqb_spec (id p) j); [congruence|reflexivity].
  - destruct (Z.eqb_spec (id p) j) as [<-|Hj]; [|exact IH].
    destruct (Z.eqb_spec (id p) d); [congruence|reflexivity].
Qed.

Lemma get_delete d s j :
  get j (filter (fun q => negb (Z.eqb (id q) d)) (map (unlink d) s)) =
  if Z.eqb j d then None else option_map (unlink d) (get j s).
Proof. rewrite get_filter_id, get_map by apply id_unlink; reflexivity. Qed.

Lemma NoDup_map_filter (f : person -> bool) s :
  NoDup (map id s) -> NoDup (map id (filter f s)).
Proof.
  induction s as [|p s IH]; simpl; [auto|].
  intros Hnd; inversion Hnd; subst; destruct (f p); simpl; [|auto].
  constructor; [|auto].
  intros Hin; apply H1; apply in_map_iff in Hin; destruct Hin as [r [Hr Hin]].
  apply filter_In in Hin; rewrite <- Hr; apply in_map, Hin.
Qed.

Lemma delete_person_inv d s :
  nodup_all s -> I2_at s ->
  let s' := snd (delete_person d s) in
  (forall a, present s' a <-> present s a /\ (get d s <> None -> a <> d)) /\
  (uniq_ids s -> uniq_ids s') /\
  nodup_all s' /\ I2_at s' /\ (I1_at s Hijos -> I1_at s' Hijos).
Proof.
  intros Hnd H2; unfold delete_person.
  destruct (get d s) as [pd|] eqn:Ed; simpl snd.
  2:{ split; [intros a; split; [intros H; split; [exact H|congruence]|tauto]|]. auto. }
  set (s' := filter _ _).
  assert (Hpr : forall a, present s' a <-> present s a /\ a <> d).
  { intros a; unfold present, s'; rewrite get_delete.
    destruct (Z.eqb_spec a d); [split; [congruence|tauto]|].
    destruct (get a s); simpl; split;
      [intros _; split; [discriminate|assumption]|intros _; discriminate
      |intros H; congruence|intros [H _]; congruence]. }
  assert (L : forall k a b, linked s' k a b <-> linked s k a b /\ a <> d /\ b <> d).
  { intros k a b; unfold linked, s'; rewrite get_delete.
    destruct (Z.eqb_spec a d) as [->|Hne].
    - split; [intros [r [E _]]; discriminate|tauto].
    - destruct (get a s) as [r|] eqn:E; simpl.
      + split.
        * intros [r' [E' H]]; inversion E'; subst; rewrite field_unlink in H.
          split; [exists r; split; [reflexivity|exact (remove_first_In _ _ _ H)]|].
          split; [exact Hne|intros ->; exact (remove_first_gone _ _ (Hnd k a r E) H)].
        * intros ([r' [E' H]] & _ & Hb); inversion E'; subst.
          exists (unlink d r'); split; [reflexivity|].
          rewrite field_unlink; apply remove_first_keep; assumption.
      + split; [intros [r' [E' _]]; discriminate|intros ([r' [E' _]] & _); discriminate]. }
  split; [intros a; rewrite Hpr; split; [tauto|intros [H1 H3]; split; [exact H1|apply H3; congruence]]|].
  split.
  { unfold uniq_ids, s'; intros Hu; apply NoDup_map_filter.
    rewrite map_map; erewrite map_ext; [exact Hu|apply id_unlink]. }
  split.
  { intros k a r E; unfold s' in E; rewrite get_delete in E.
    destruct (Z.eqb a d); [discriminate|].
    destruct (get a s) as [r0|] eqn:E0; simpl in E; inversion E; subst.
    rewrite field_unlink; apply remove_first_NoDup, (Hnd k a r0 E0). }
  split.
  { intros k a b Hl; apply L in Hl; destruct Hl as (Hl & _ & Hb).
    apply Hpr; split; [exact (H2 _ _ _ Hl)|exact Hb]. }
  intros H1 a b Ha Hb; apply Hpr in Ha, Hb; rewrite !L.
  destruct Ha as [Ha Had], Hb as [Hb Hbd]; rewrite (H1 a b Ha Hb); tauto.
Qed.

(** *** From records to ids *)

Lemma present_get s a : present s a -> exists r, get a s = Some r.
Proof. unfold present; destruct (get a s); [eauto|congruence]. Qed.

Lemma I1_iff s : uniq_ids s -> (I1 s <-> I1_at s Hijos).
Proof.
  intros Hu; split.
  - intros H a b Ha Hb; destruct (present_get _ _ Ha) as [ra Ea].
    destruct (present_get _ _ Hb) as [rb Eb].
    destruct (get_Some _ _ _ Ea) as [Ia <-], (get_Some _ _ _ Eb) as [Ib <-].
    unfold linked; simpl field; rewrite Ea, Eb; split.
    + intros [r [E Hr]]; inversion E; subst; exists rb; split; [reflexivity|apply H; auto].
    + intros [r [E Hr]]; inversion E; subst; exists ra; split; [reflexivity|apply H; auto].
  - intros H ra rb Ia Ib.
    pose proof (get_In _ _ Hu Ia) as Ea; pose proof (get_In _ _ Hu Ib) as Eb.
    assert (Ha : present s (id ra)) by (unfold present; congruence).
    assert (Hb : present s (id rb)) by (unfold present; congruence).
    specialize (H _ _ Ha Hb); unfold linked in H; simpl in H; split.
    + intros Hr; destruct (proj1 H (ex_intro _ ra (conj Ea Hr))) as [r [E Hr']].
      rewrite Eb in E; inversion E; subst; exact Hr'.
    + intros Hr; destruct (proj2 H (ex_intro _ rb (conj Eb Hr))) as [r [E Hr']].
      rewrite Ea in E; inversion E; subst; exact Hr'.
Qed.

Lemma I2_iff s : uniq_ids s -> (I2 s <-> I2_at s).
Proof.
  intros Hu; split.
  - intros H k a b [r [E Hr]]; destruct (get_Some _ _ _ E) as [Ir _].
    apply (H r b Ir), in_app_iff; destruct k; auto.
  - intros H r b Ir Hb; pose proof (get_In _ _ Hu Ir) as E.
    apply in_app_iff in Hb; destruct Hb as [Hb|Hb];
      [apply (H Padres (id r))|apply (H Hijos (id r))]; exists r; auto.
Qed.

Lemma nodup_iff s : uniq_ids s -> (nodup_links s <-> nodup_all s).
Proof.
  intros Hu; split.
  - intros H k a r E; destruct (get_Some _ _ _ E) as [Ir _].
    destruct (H r Ir); destruct k; assumption.
  - intros H r Ir; pose proof (get_In _ _ Hu Ir) as E.
    split; [exact (H Padres _ _ E)|exact (H Hijos _ _ E)].
Qed.

(** ** Each operation keeps the store well formed *)

Lemma step_wf s o :
  wf s -> valid_op s o -> wf (run_op o s) /\ (I1 s -> I1 (run_op o s)).
Proof.
  intros (Hu & Hn & H2) Hv.
  apply (nodup_iff _ Hu) in Hn; apply (I2_iff _ Hu) in H2.
  assert (Hfin : forall s', uniq_ids s' -> nodup_all s' -> I2_at s' ->
            (I1_at s Hijos -> I1_at s' Hijos) -> wf s' /\ (I1 s -> I1 s')).
  { intros s' Hu' Hn' H2' H1'; split.
    - split; [exact Hu'|split; [apply nodup_iff; auto|apply I2_iff; auto]].
    - intros H1; apply I1_iff; [exact Hu'|apply H1', I1_iff; auto]. }
  destruct o as [n d de ps cs|i kw|i]; cbv [run_op valid_op] in Hv |- *.
  - destruct Hv as [Hps Hcs].
    destruct (add_person_inv n d de ps cs s Hps Hcs Hn H2) as (Hm & _ & Hn' & H2' & H1').
    apply Hfin; [|assumption..].
    unfold uniq_ids; rewrite Hm; apply NoDup_app; [exact Hu|constructor; [tauto|constructor]|].
    intros a Ha [Heq|[]]; subst a; apply in_map_iff in Ha; destruct Ha as [r [Hid Hr]].
    apply generate_id_gt in Hr; lia.
  - destruct Hv as [Hp Hh].
    destruct (update_person_inv i kw s Hp Hh Hn H2) as (Hm & Hn' & H2' & H1').
    apply Hfin; [unfold uniq_ids; rewrite Hm; exact Hu|assumption..].
  - destruct (delete_person_inv i s Hn H2) as (_ & Hu' & Hn' & H2' & H1').
    apply Hfin; [apply Hu', Hu|assumption..].
Qed.

Lemma trace_wf s ops :
  wf s -> valid_run s ops -> Forall wf (trace s ops) /\ (I1 s -> Forall I1 (trace s ops)).
Proof.
  revert s; induction ops as [|o ops IH]; intros s Hw Hv; simpl; [split; constructor|].
  destruct Hv as [Ho Hr]; destruct (step_wf s o Hw Ho) as [Hw' H1'].
  destruct (IH _ Hw' Hr) as [Hf H1f]; split; [constructor; assumption|].
  intros H1; constructor; [apply H1', H1|apply H1f, H1', H1].
Qed.

(** *** One relationship block, seen from the edited record *)

Lemma replace_self_view k p new s q :
  get p s = Some q -> ~ In p new ->
  let s' := replace_links k p new s in
  (forall b, linked s' k p b <-> In b new) /\
  (forall a, linked s k p a -> ~ In a new -> nodup_at s (recip k) a ->
     ~ linked s' (recip k) a p) /\
  (forall a, In a new -> present s a -> linked s' (recip k) a p) /\
  (forall a b, a <> p -> (linked s' k a b <-> linked s k a b)) /\
  (~ linked s (recip k) p p -> forall b, linked s' (recip k) p b <-> linked s (recip k) p b) /\
  (forall k' a, ~ (k' = k /\ a = p) -> nodup_at s k' a -> nodup_at s' k' a) /\
  (forall a, present s' a <-> present s a).
Proof.
  intros Hq Hself; cbv zeta.
  assert (Hown : forall a, linked s k p a -> In a (field k q)).
  { intros a [r [E H]]; rewrite Hq in E; inversion E; subst; exact H. }
  split; [intros b; rewrite (linked_replace_own _ _ _ _ _ Hq); split;
          [intros [[Hc _]|[_ H]]; [congruence|exact H]|intros H; right; auto]|].
  split; [intros a Hl Hn Hnd; apply (linked_replace_recip_gone _ _ _ _ _ Hq);
          [exact (Hown a Hl)|exact Hn|exact Hnd]|].
  split; [intros a Ha Hp; apply (linked_replace_recip_new _ _ _ _ _ Hq); assumption|].
  split; [intros a b Hne; rewrite (linked_replace_own _ _ _ _ _ Hq); split;
          [intros [[_ H]|[Hc _]]; [exact H|congruence]|intros H; left; auto]|].
  split.
  { intros Hpp b; split.
    - intros H; destruct (linked_replace_recip_sub _ _ _ _ _ Hq _ _ H) as [H'|(_ & Hc & _)];
        [exact H'|contradiction].
    - intros H; apply linked_replace_recip_keep with (q := q); [exact Hq|exact H|].
      intros (-> & _); exact (Hpp H). }
  split; [intros k' a Hn Hnd; apply nodup_at_replace with (q := q);
          [exact Hq|intros ? ?; tauto|intros _; exact Hnd]|].
  intros a; apply (present_replace _ _ _ _ _ Hq).
Qed.

(** *** Both relationship blocks of [update_person] *)

Lemma update_padres_view id_ np oh s1 q1 :
  get id_ s1 = Some q1 -> nodup_all s1 -> ~ In id_ np ->
  (forall nc, oh = Some nc -> ~ In id_ nc) ->
  let s2 := replace_links Padres id_ np s1 in
  let s3 := match oh with Some nc => replace_links Hijos id_ nc s2 | None => s2 end in
  (forall b, linked s3 Padres id_ b <-> In b np) /\
  (forall a, linked s1 Padres id_ a -> ~ In a np -> ~ linked s3 Hijos a id_) /\
  (forall a, In a np -> present s1 a -> linked s3 Hijos a id_).
Proof.
  intros E1 Hnd Hnp Hnc; cbv zeta.
  destruct (replace_self_view Padres id_ np s1 q1 E1 Hnp) as (A1 & A2 & A3 & _ & _ & _ & A7).
  simpl recip in *.
  set (s2 := replace_links Padres id_ np s1) in *.
  destruct oh as [nc|].
  2:{ split; [exact A1|split; [intros a Hl Hn; exact (A2 a Hl Hn (Hnd _ _))|exact A3]]. }
  assert (Hp2 : present s2 id_) by (apply A7; unfold present; congruence).
  destruct (present_get _ _ Hp2) as [q2 E2].
  destruct (replace_self_view Hijos id_ nc s2 q2 E2 (Hnc nc eq_refl))
    as (B1 & _ & _ & B4 & B5 & _ & _).
  simpl recip in *.
  assert (Hpp : ~ linked s2 Padres id_ id_) by (rewrite A1; exact Hnp).
  split; [intros b; rewrite (B5 Hpp); apply A1|].
  split.
  - intros a Hl Hn; destruct (Z.eq_dec a id_) as [->|Hne].
    + rewrite B1; exact (Hnc nc eq_refl).
    + rewrite (B4 _ _ Hne); exact (A2 a Hl Hn (Hnd _ _)).
  - intros a Ha Hp; assert (Hne : a <> id_) by (intros ->; contradiction).
    rewrite (B4 _ _ Hne); exact (A3 a Ha Hp).
Qed.

Lemma update_hijos_view id_ op nc s1 q1 :
  get id_ s1 = Some q1 -> nodup_all s1 -> ~ In id_ nc ->
  (forall np, op = Some np -> ~ In id_ np) ->
  let s2 := match op with Some np => replace_links Padres id_ np s1 | None => s1 end in
  let s3 := replace_links Hijos id_ nc s2 in
  (forall b, linked s3 Hijos id_ b <-> In b nc) /\
  (forall c, linked s1 Hijos id_ c -> ~ In c nc -> ~ linked s3 Padres c id_) /\
  (forall c, In c nc -> present s1 c -> linked s3 Padres c id_).
Proof.
  intros E1 Hnd Hnc Hnp; cbv zeta.
  destruct op as [np|].
  - destruct (replace_self_view Padres id_ np s1 q1 E1 (Hnp np eq_refl))
      as (A1 & _ & _ & _ & _ & A6 & A7).
    simpl recip in *.
    set (s2 := replace_links Padres id_ np s1) in *.
    assert (Hp2 : present s2 id_) by (apply A7; unfold present; congruence).
    destruct (present_get _ _ Hp2) as [q2 E2].
    destruct (replace_self_view Hijos id_ nc s2 q2 E2 Hnc)
      as (B1 & B2 & B3 & _ & B5 & _ & B7).
    simpl recip in *.
    assert (Hpp : ~ linked s2 Padres id_ id_) by (rewrite A1; exact (Hnp np eq_refl)).
    split; [exact B1|split].
    + intros c Hl Hn; destruct (Z.eq_dec c id_) as [->|Hne].
      * rewrite (B5 Hpp); exact Hpp.
      * apply B2; [|exact Hn|apply A6; [intros (_ & Hc); exact (Hne Hc)|apply Hnd]].
        apply linked_replace_recip_keep with (q := q1); [exact E1|exact Hl|].
        intros (Hc & _); exact (Hne Hc).
    + intros c Hc Hp; apply B3; [exact Hc|apply A7, Hp].
  - destruct (replace_self_view Hijos id_ nc s1 q1 E1 Hnc)
      as (B1 & B2 & B3 & _ & _ & _ & _).
    split; [exact B1|split; [intros c Hl Hn; exact (B2 c Hl Hn (Hnd _ _))|exact B3]].
Qed.

(** *** Scalar fields are untouched by the link updates *)

Lemma scalars_set_field k r l : scalars (set_field k r l) = scalars r.
Proof. destruct k; reflexivity. Qed.

Lemma scalars_modify_links t k g s j :
  option_map scalars (get j (modify t (fun r => set_field k r (g r)) s)) =
  option_map scalars (get j s).
Proof.
  rewrite get_modify by (intros; apply id_set_field).
  destruct (Z.eqb_spec j t) as [->|]; [|reflexivity].
  destruct (get t s); simpl; [rewrite scalars_set_field|]; reflexivity.
Qed.

Lemma scalars_add_ref k v s t j :
  option_map scalars (get j (add_ref k v s t)) = option_map scalars (get j s).
Proof.
  unfold add_ref; destruct (get t s); [destruct (negb _)|]; try reflexivity.
  apply (scalars_modify_links t k (fun r => field k r ++ [v])).
Qed.

Lemma scalars_del_ref k v s t j :
  option_map scalars (get j (del_ref k v s t)) = option_map scalars (get j s).
Proof.
  unfold del_ref; destruct (get t s); [destruct (mem _ _)|]; try reflexivity.
  apply (scalars_modify_links t k (fun r => remove_first v (field k r))).
Qed.

Lemma scalars_fold {A} (f : store -> A -> store) L s j :
  (forall st o j, option_map scalars (get j (f st o)) = option_map scalars (get j st)) ->
  option_map scalars (get j (fold_left f L s)) = option_map scalars (get j s).
Proof.
  intros Hf; revert s; induction L as [|o L IH]; intros s; simpl; [reflexivity|].
  rewrite IH; apply Hf.
Qed.

Lemma scalars_replace k p new s j :
  option_map scalars (get j (replace_links k p new s)) = option_map scalars (get j s).
Proof.
  unfold replace_links; cbv zeta.
  rewrite scalars_fold by (intros; apply scalars_add_ref).
  rewrite (scalars_modify_links p k (fun _ => new)).
  apply scalars_fold; intros st o j'; destruct (negb _); [apply scalars_del_ref|reflexivity].
Qed.

(** *** The record's own lists after a relationship block *)

Lemma get_add_ref_other k v st t j : j <> t -> get j (add_ref k v st t) = get j st.
Proof.
  intros Hne; unfold add_ref; destruct (get t st); [destruct (negb _)|]; try reflexivity.
  rewrite get_modify by (intros; apply id_set_field).
  replace (Z.eqb j t) with false by (symmetry; apply Z.eqb_neq; exact Hne); reflexivity.
Qed.

Lemma get_fold_add_ref_other k v L st j :
  ~ In j L -> get j (fold_left (add_ref k v) L st) = get j st.
Proof.
  revert st; induction L as [|t L IH]; intros st Hn; simpl; [reflexivity|].
  rewrite IH by (intros H; apply Hn; right; exact H).
  apply get_add_ref_other; intros ->; apply Hn; left; reflexivity.
Qed.

Lemma field_add_ref_other k v st t j k' :
  k' <> k -> option_map (field k') (get j (add_ref k v st t)) = option_map (field k') (get j st).
Proof.
  intros Hk; unfold add_ref; destruct (get t st) eqn:Et; [destruct (negb _)|]; try reflexivity.
  rewrite get_modify by (intros; apply id_set_field).
  destruct (Z.eqb_spec j t) as [->|]; [|reflexivity].
  rewrite Et; simpl; rewrite field_set_other by exact Hk; reflexivity.
Qed.

Lemma field_del_ref_same k v st t j l :
  option_map (field k) (get j st) = Some l -> ~ In v l ->
  option_map (field k) (get j (del_ref k v st t)) = Some l.
Proof.
  intros Hj Hv; unfold del_ref; destruct (get t st) as [r|] eqn:Et; [|exact Hj].
  destruct (mem v (field k r)) eqn:Em; [|exact Hj].
  rewrite get_modify by (intros; apply id_set_field).
  destruct (Z.eqb_spec j t) as [->|]; [|exact Hj].
  rewrite Et in Hj; injection Hj as <-; apply mem_In in Em; contradiction.
Qed.

Lemma field_fold {A} (f : store -> A -> store) (g : person -> list Z) L s j :
  (forall st a, option_map g (get j (f st a)) = option_map g (get j st)) ->
  option_map g (get j (fold_left f L s)) = option_map g (get j s).
Proof.
  intros Hf; revert s; induction L as [|a L IH]; intros s; simpl; [reflexivity|].
  rewrite IH; apply Hf.
Qed.

(** [p[k] = new] is the last write to the record's own list [k]. *)
Lemma own_field_replace k p new s :
  present s p -> option_map (field k) (get p (replace_links k p new s)) = Some new.
Proof.
  intros Hp; unfold replace_links; cbv zeta.
  rewrite (field_fold (add_ref (recip k) p) (field k))
    by (intros; apply field_add_ref_other; intros E; apply (recip_neq k); symmetry; exact E).
  rewrite get_modify by (intros; apply id_set_field); rewrite Z.eqb_refl.
  match goal with |- context [get p (fold_left ?f ?old s)] =>
    assert (Hp' : present (fold_left f old s) p) by (apply present_fold_del; exact Hp);
    destruct (get p (fold_left f old s)) eqn:Eg end; [|contradiction].
  simpl; rewrite field_set_same; reflexivity.
Qed.

(** The record's other list survives a block that neither names the record
    among the new targets nor finds it in that list. *)
Lemma recip_field_replace_self k p new s l :
  ~ In p new -> ~ In p l -> option_map (field (recip k)) (get p s) = Some l ->
  option_map (field (recip k)) (get p (replace_links k p new s)) = Some l.
Proof.
  intros Hn Hl Hs; unfold replace_links; cbv zeta.
  rewrite get_fold_add_ref_other by exact Hn.
  rewrite get_modify by (intros; apply id_set_field); rewrite Z.eqb_refl.
  assert (Hf : forall old st, option_map (field (recip k)) (get p st) = Some l ->
    option_map (field (recip k))
      (get p (fold_left (fun st o => if negb (mem o new) then del_ref (recip k) p st o else st) old st))
    = Some l).
  { induction old as [|o old IH]; intros st Hst; simpl; [exact Hst|].
    apply IH; destruct (negb _); [apply field_del_ref_same; assumption|exact Hst]. }
  specialize (Hf (match get p s with Some q => field k q | None => [] end) s Hs).
  destruct (get p (fold_left _ _ s)); [|discriminate].
  simpl in Hf |- *; rewrite field_set_other by apply recip_neq; exact Hf.
Qed.

(** *** Centering of a level *)

Section Centering.
Local Open Scope Q_scope.

Lemma inject_Z_succ_nat (n : nat) :
  inject_Z (Z.of_nat (S n)) == inject_Z (Z.of_nat n) + 1.
Proof. rewrite Nat2Z.inj_succ, <- Z.add_1_r, inject_Z_plus; reflexivity. Qed.

Lemma qsum_app l1 l2 : qsum (l1 ++ l2) == qsum l1 + qsum l2.
Proof.
  induction l1 as [|a l1 IH]; simpl; [ring|]. rewrite IH; ring.
Qed.

Lemma qsum_offsets (n : nat) (c : Q) :
  qsum (map (fun i => (inject_Z (Z.of_nat i) - c) * x_gap) (seq 0 n)) ==
  (inject_Z (Z.of_nat n) * (inject_Z (Z.of_nat n) - 1) / 2 - inject_Z (Z.of_nat n) * c) * x_gap.
Proof.
  induction n as [|n IH].
  - simpl; unfold x_gap; field.
  - rewrite seq_S, map_app, qsum_app, IH, Nat.add_0_l.
    unfold qsum; cbn [map fold_right].
    rewrite !inject_Z_succ_nat; unfold x_gap; field.
Qed.

End Centering.

Lemma map_fst_combine {A B} (l1 : list A) (l2 : list B) :
  List.length l1 = List.length l2 -> map fst (combine l1 l2) = l1.
Proof.
  revert l2; induction l1 as [|a l1 IH]; intros [|b l2] H; simpl in *; try discriminate;
    [reflexivity|]. rewrite IH; [reflexivity|lia].
Qed.

(** Duplicate-free stored lists, read through [get]; no id uniqueness needed. *)
Lemma nodup_links_all s : nodup_links s -> nodup_all s.
Proof.
  intros H k a r E; destruct (get_Some _ _ _ E) as [Ir _].
  destruct (H r Ir); destruct k; assumption.
Qed.

(** *** Helpers for the claims *)

Lemma map_id_add_person name dob description ps cs s :
  map id (snd (add_person name dob description ps cs s)) = map id s ++ [generate_id s].
Proof.
  unfold add_person; cbv zeta; simpl snd.
  rewrite !map_id_fold by (intros; apply map_id_add_ref).
  rewrite map_app; reflexivity.
Qed.

Lemma modify_id i f s : (forall r, f r = r) -> modify i f s = s.
Proof.
  intros Hf; induction s as [|p s IH]; simpl; [reflexivity|].
  destruct (Z.eqb (id p) i); [rewrite Hf|rewrite IH]; reflexivity.
Qed.

Lemma supplied_omit {A} (k : kwarg A) : supplied (omit_none k) = supplied k.
Proof. destruct k; reflexivity. Qed.

Lemma update_scalars_omit kw : update_scalars (omit_nones kw) = update_scalars kw.
Proof.
  destruct kw as [a b c d e]; destruct a, b, c; reflexivity.
Qed.

Lemma update_scalars_all_none r : update_scalars all_none r = r.
Proof. destruct r; reflexivity. Qed.

Lemma option_map_scalars_field {A} (g : person -> A) (h : string * string * string -> A) o1 o2 :
  (forall r, g r = h (scalars r)) ->
  option_map scalars o1 = option_map scalars o2 -> option_map g o1 = option_map g o2.
Proof.
  intros Hg; destruct o1, o2; simpl; intros E; try discriminate; [|reflexivity].
  assert (E' : scalars p = scalars p0) by congruence.
  rewrite !Hg, E'; reflexivity.
Qed.

Lemma rels_modify_scalars id_ kw s j :
  option_map rels (get j (modify id_ (update_scalars kw) s)) = option_map rels (get j s).
Proof.
  rewrite get_modify by apply id_update_scalars.
  destruct (Z.eqb_spec j id_) as [->|]; [|reflexivity].
  destruct (get id_ s); reflexivity.
Qed.

Lemma nth_error_combine_seq {A} (l : list A) k i :
  nth_error (combine (seq k (List.length l)) l) i = option_map (fun v => (k + i, v)%nat) (nth_error l i).
Proof.
  revert k i; induction l as [|v l IH]; intros k [|i]; simpl; try reflexivity.
  - rewrite Nat.add_0_r; reflexivity.
  - rewrite IH, Nat.add_succ_r; reflexivity.
Qed.

Lemma assign_level_length lvl ids : List.length (assign_level lvl ids) = List.length ids.
Proof.
  unfold assign_level; rewrite length_map, length_combine, length_seq, Nat.min_id; reflexivity.
Qed.

Lemma assign_level_xs lvl ids :
  map (fun c => snd (fst c)) (assign_level lvl ids) =
  map (fun i => (inject_Z (Z.of_nat i) - inject_Z (Z.of_nat (List.length ids) - 1) / 2) * x_gap)%Q
      (seq 0 (List.length ids)).
Proof.
  unfold assign_level; rewrite map_map.
  set (h := fun i => ((inject_Z (Z.of_nat i) - inject_Z (Z.of_nat (List.length ids) - 1) / 2) * x_gap)%Q).
  rewrite map_ext with (g := fun c => h (fst c)) by (intros [i nid]; reflexivity).
  rewrite <- (map_map fst h), map_fst_combine by apply length_seq; reflexivity.
Qed.

Lemma scalars_update_person id_ kw s p j :
  get id_ s = Some p ->
  option_map scalars (get j (snd (update_person id_ kw s))) =
  option_map scalars (get j (modify id_ (update_scalars kw) s)).
Proof.
  intros E; unfold update_person; rewrite E.
  destruct (get_Some _ _ _ E) as [_ Hid]; rewrite Hid; cbn [snd].
  destruct (supplied (kw_padres kw)), (supplied (kw_hijos kw)); rewrite ?scalars_replace; reflexivity.
Qed.

Lemma update_person_no_links id_ kw s :
  supplied (kw_padres kw) = None -> supplied (kw_hijos kw) = None ->
  snd (update_person id_ kw s) =
  match get id_ s with Some _ => modify id_ (update_scalars kw) s | None => s end.
Proof.
  intros Hp Hh; unfold update_person; destruct (get id_ s); [rewrite Hp, Hh|]; reflexivity.
Qed.

(** The empty store is well formed and satisfies I1. *)
Lemma wf_nil : wf [] /\ I1 [].
Proof.
  split; [split; [apply NoDup_nil | split] |].
  - intros r [].
  - intros r b [].
  - intros ra rb [].
Qed.

(** Deciding [ids_ok] and [valid_run] on concrete calls. *)
Ltac solve_NoDup :=
  repeat (constructor; [simpl; intros Hin; repeat (destruct Hin as [Hin|Hin]; [discriminate|]); exact Hin|]);
  constructor.

Ltac solve_nodup_links :=
  intros r Hr; simpl in Hr; repeat destruct Hr as [<-|Hr];
  [ split; simpl; solve_NoDup .. | contradiction ].

Ltac solve_ids_ok :=
  split;
  [ solve_NoDup
  | intros b Hb; simpl in Hb; repeat destruct Hb as [<-|Hb];
    [ vm_compute; discriminate .. | contradiction ] ].

Ltac solve_valid_run :=
  cbv [valid_run];
  repeat match goal with
  | |- _ /\ _ => split
  | |- True => exact I
  | |- valid_op _ _ => cbv [valid_op supplied kw_padres kw_hijos opt_ok]
  | |- ids_ok _ _ => solve_ids_ok
  end.

(** ** Claims *)

(** C1 (amended). Reciprocity I1 holds after every call of any run of
    [add_person], [update_person] and [delete_person] that starts from a
    store satisfying I1 with unique ids, duplicate-free lists and no
    dangling ids, when every relationship list passed to a call is
    duplicate-free and names only records present before that call. *)
Theorem reciprocity_preserved (s : store) (ops : list op) :
  wf s -> I1 s -> valid_run s ops -> Forall I1 (trace s ops).
Proof.
  intros Hw H1 Hv; exact (proj2 (trace_wf s ops Hw Hv) H1).
Qed.

(** C1 counterexample: from the empty store, [update_person(1, padres=[2])]
    stores the dangling id 2, and the next [add_person] creates record 2
    without listing 1 under its ["hijos"]: I1 fails after that call. *)
Lemma reciprocity_fails_after_dangling_update : ~ Forall I1 (trace [] ops_dangling_parent).
Proof.
  assert (Ht : trace [] ops_dangling_parent =
    [[person_of 1 "Ana" [] []]; [person_of 1 "Ana" [2] []];
     [person_of 1 "Ana" [2] []; person_of 2 "Bea" [] []]]) by reflexivity.
  intros H; rewrite Ht, Forall_forall in H.
  pose proof (H _ (or_intror (or_intror (or_introl eq_refl)))) as H3.
  destruct (H3 (person_of 2 "Bea" [] []) (person_of 1 "Ana" [2] [])) as [_ Hc];
    [right; left; reflexivity|left; reflexivity|].
  exact (Hc (or_introl eq_refl)).
Qed.

(** Witness for C1: a valid run of five calls from the empty store. *)
Lemma reciprocity_preserved_witness :
  wf [] /\ I1 [] /\ valid_run [] ops_valid /\ Forall I1 (trace [] ops_valid).
Proof.
  assert (Hv : valid_run [] ops_valid) by (cbv [ops_valid]; solve_valid_run).
  split; [exact (proj1 wf_nil)|]. split; [exact (proj2 wf_nil)|]. split; [exact Hv|].
  exact (reciprocity_preserved [] ops_valid (proj1 wf_nil) (proj2 wf_nil) Hv).
Defined.

(** C2 (amended). No dangling references (I2) holds after every call of
    any run of [add_person], [update_person] and [delete_person] that starts
    from a store with unique ids, duplicate-free lists and I2, when every
    relationship list passed to a call is duplicate-free and names only
    records present before that call. *)
Theorem no_dangling_preserved (s : store) (ops : list op) :
  wf s -> valid_run s ops -> Forall I2 (trace s ops).
Proof.
  intros Hw Hv.
  apply (Forall_impl _ (fun s' (H : wf s') => proj2 (proj2 H))).
  exact (proj1 (trace_wf s ops Hw Hv)).
Qed.

(** C2 counterexample: [add_person] on the empty store with [padres=[5]]
    stores the id 5, which names no record. *)
Lemma add_person_dangling_parent :
  ~ I2 (snd (add_person "Ana" "" "" (Some [5]) None [])).
Proof.
  assert (E : snd (add_person "Ana" "" "" (Some [5]) None []) = [person_of 1 "Ana" [5] []])
    by reflexivity.
  rewrite E; intros H.
  exact (H _ 5 (or_introl eq_refl) (or_introl eq_refl) eq_refl).
Qed.

(** Witness for C2. *)
Lemma no_dangling_preserved_witness :
  wf [] /\ valid_run [] ops_valid /\ Forall I2 (trace [] ops_valid).
Proof.
  assert (Hv : valid_run [] ops_valid) by (cbv [ops_valid]; solve_valid_run).
  split; [exact (proj1 wf_nil)|]. split; [exact Hv|].
  exact (no_dangling_preserved [] ops_valid (proj1 wf_nil) Hv).
Defined.

(** C3 (code bug). The leveling pass adds a node to [visited] only when it
    is dequeued, not when it is discovered.  On [family4] node 4 (child of 2
    and of the root 3) is first reached at level 1, is reached again from 2
    while level 1 is processed, and is placed in level 2 as well; its final
    position is the one of level 2, (0, 400), not the one of level 1. *)
Theorem layout_rediscovered_node_moves :
  layout_levels family4 = Some [[1; 3]; [2; 4]; [4]] /\
  exists calls, auto_layout family4 = Some calls /\
    exists xq, final_pos calls 4 = Some (xq, 400) /\ (xq == 0)%Q.
Proof.
  split; [vm_compute; reflexivity|].
  eexists; split; [vm_compute; reflexivity|].
  eexists; split; [vm_compute; reflexivity|].
  reflexivity.
Qed.

(** C4 (amended). For an existing record whose id is in neither supplied
    relationship list, on a store whose stored lists are duplicate-free:
    when [padres] is supplied, afterwards the record's [padres] list is the
    supplied list itself (same order, same entries), every former parent
    left out of it no longer lists the record under [hijos], and every
    supplied parent present in the store lists it; symmetrically for [hijos] and the children's [padres].  With
    [padres=[]] this leaves the record parentless and unlinks it from every
    former parent. *)
Theorem update_person_replaces_links (s : store) (id_ : Z) (kw : kwargs) :
  nodup_links s -> get id_ s <> None ->
  (forall np, supplied (kw_padres kw) = Some np -> ~ In id_ np) ->
  (forall nc, supplied (kw_hijos kw) = Some nc -> ~ In id_ nc) ->
  let s' := snd (update_person id_ kw s) in
  (forall np, supplied (kw_padres kw) = Some np ->
     option_map padres (get id_ s') = Some np /\
     (forall b, linked s' Padres id_ b <-> In b np) /\
     (forall a, linked s Padres id_ a -> ~ In a np -> ~ linked s' Hijos a id_) /\
     (forall a, In a np -> present s a -> linked s' Hijos a id_)) /\
  (forall nc, supplied (kw_hijos kw) = Some nc ->
     option_map hijos (get id_ s') = Some nc /\
     (forall b, linked s' Hijos id_ b <-> In b nc) /\
     (forall c, linked s Hijos id_ c -> ~ In c nc -> ~ linked s' Padres c id_) /\
     (forall c, In c nc -> present s c -> linked s' Padres c id_)).
Proof.
  intros Hnl Hp Hsp Hsh; pose proof (nodup_links_all s Hnl) as Hnd.
  unfold update_person.
  destruct (get id_ s) as [p|] eqn:E; [|congruence].
  destruct (get_Some _ _ _ E) as [_ Hid]; rewrite Hid; cbv zeta; simpl snd.
  set (s1 := modify id_ (update_scalars kw) s).
  assert (E1 : get id_ s1 = Some (update_scalars kw p))
    by (unfold s1; rewrite get_modify by apply id_update_scalars; rewrite Z.eqb_refl, E; reflexivity).
  pose proof (nodup_scalars id_ kw s Hnd) as Hnd1; fold s1 in Hnd1.
  assert (P1 : present s1 id_) by (unfold present; rewrite E1; discriminate).
  split.
  - intros np Hnp; rewrite Hnp.
    destruct (update_padres_view id_ np (supplied (kw_hijos kw)) s1 _ E1 Hnd1 (Hsp np Hnp) Hsh)
      as (A1 & A2 & A3).
    split.
    { pose proof (own_field_replace Padres id_ np s1 P1) as O.
      destruct (supplied (kw_hijos kw)) as [nc|] eqn:Eh; [|exact O].
      apply (recip_field_replace_self Hijos id_ nc _ np (Hsh nc eq_refl) (Hsp np Hnp) O). }
    split; [exact A1|split].
    + intros a Hl Hn; apply A2; [apply linked_scalars, Hl|exact Hn].
    + intros a Ha Hpa; apply A3; [exact Ha|apply present_scalars, Hpa].
  - intros nc Hnc; rewrite Hnc.
    destruct (update_hijos_view id_ (supplied (kw_padres kw)) nc s1 _ E1 Hnd1 (Hsh nc Hnc) Hsp)
      as (B1 & B2 & B3).
    split.
    { apply (own_field_replace Hijos).
      destruct (supplied (kw_padres kw)) as [np|]; [|exact P1].
      apply (present_replace Padres id_ np s1 _ E1), P1. }
    split; [exact B1|split].
    + intros c Hl Hn; apply B2; [apply linked_scalars, Hl|exact Hn].
    + intros c Hc Hpc; apply B3; [exact Hc|apply present_scalars, Hpc].
Qed.

(** C4 counterexample.  (1) A record given itself as parent while its
    [hijos] are replaced by [[]]: the first block lists 1 under its own
    [hijos], the second block then removes 1 from its [padres], so the
    [padres] end as [[]], not the supplied [[1]].  (2) A former parent whose
    [hijos] hold the id twice keeps one copy after [padres=[]]. *)
Lemma update_person_replace_fails :
  (let s' := snd (update_person 1 (mk_kwargs Omitted Omitted Omitted (Given [1]) (Given []))
                    [person_of 1 "Ana" [] []]) in
   ~ (forall b, linked s' Padres 1 b <-> In b [1])) /\
  (let s' := snd (update_person 2 (mk_kwargs Omitted Omitted Omitted (Given []) Omitted)
                    [person_of 1 "Ana" [] [2; 2]; person_of 2 "Bea" [1] []]) in
   linked s' Hijos 1 2).
Proof.
  split; cbv zeta.
  - intros H; destruct (proj2 (H 1) (or_introl eq_refl)) as [r [Er Hr]].
    vm_compute in Er; injection Er as <-; exact Hr.
  - exists (person_of 1 "Ana" [] [2]); split; [vm_compute; reflexivity|left; reflexivity].
Qed.

(** Witness for C4: record 2 (child of 1) is given the parent 3 instead. *)
Lemma update_person_replaces_links_witness :
  let s := [person_of 1 "Ana" [] [2]; person_of 2 "Bea" [1] []; person_of 3 "Carla" [] []] in
  let kw := mk_kwargs Omitted Omitted Omitted (Given [3]) Omitted in
  nodup_links s /\ get 2 s <> None /\
  (let s' := snd (update_person 2 kw s) in
   forall np, supplied (kw_padres kw) = Some np ->
     option_map padres (get 2 s') = Some np /\
     (forall b, linked s' Padres 2 b <-> In b np) /\
     (forall a, linked s Padres 2 a -> ~ In a np -> ~ linked s' Hijos a 2) /\
     (forall a, In a np -> present s a -> linked s' Hijos a 2)).
Proof.
  cbv zeta.
  assert (Hnl : nodup_links [person_of 1 "Ana" [] [2]; person_of 2 "Bea" [1] [];
                             person_of 3 "Carla" [] []]) by solve_nodup_links.
  assert (Hp : get 2 [person_of 1 "Ana" [] [2]; person_of 2 "Bea" [1] [];
                      person_of 3 "Carla" [] []] <> None) by (vm_compute; discriminate).
  split; [exact Hnl|split; [exact Hp|]].
  refine (proj1 (update_person_replaces_links _ 2 (mk_kwargs Omitted Omitted Omitted (Given [3]) Omitted)
                   Hnl Hp _ _)).
  - intros np E; vm_compute in E; injection E as <-; simpl; intros [H|[]]; discriminate.
  - intros nc E; vm_compute in E; discriminate.
Defined.

(** C5. After [delete_person(d)] reports success on a store whose stored
    lists are duplicate-free, no remaining record lists [d] under [padres]
    or [hijos], and [get d] finds nothing. *)
Theorem delete_person_complete (s : store) (d : Z) (s' : store) :
  nodup_links s -> delete_person d s = (true, s') ->
  (forall r, In r s' -> ~ In d (padres r) /\ ~ In d (hijos r)) /\ get d s' = None.
Proof.
  intros Hnl; unfold delete_person.
  destruct (get d s) as [p|] eqn:E; [|discriminate].
  intros Heq; injection Heq as <-; split.
  - intros r Hr; apply filter_In in Hr as [Hr _].
    apply in_map_iff in Hr as [o [<- Ho]]; destruct (Hnl o Ho) as [Hp Hh].
    split.
    + change (padres (unlink d o)) with (field Padres (unlink d o)).
      rewrite field_unlink; exact (remove_first_gone d _ Hp).
    + change (hijos (unlink d o)) with (field Hijos (unlink d o)).
      rewrite field_unlink; exact (remove_first_gone d _ Hh).
  - rewrite get_delete, Z.eqb_refl; reflexivity.
Qed.

(** Witness for C5: deleting the parent of a two-record family. *)
Lemma delete_person_complete_witness :
  nodup_links [person_of 1 "Ana" [] [2]; person_of 2 "Bea" [1] []] /\
  delete_person 1 [person_of 1 "Ana" [] [2]; person_of 2 "Bea" [1] []] =
    (true, [person_of 2 "Bea" [] []]) /\
  (forall r, In r [person_of 2 "Bea" [] []] -> ~ In 1 (padres r) /\ ~ In 1 (hijos r)) /\
  get 1 [person_of 2 "Bea" [] []] = None.
Proof.
  assert (Hnl : nodup_links [person_of 1 "Ana" [] [2]; person_of 2 "Bea" [1] []])
    by solve_nodup_links.
  assert (Hd : delete_person 1 [person_of 1 "Ana" [] [2]; person_of 2 "Bea" [1] []] =
               (true, [person_of 2 "Bea" [] []])) by (vm_compute; reflexivity).
  split; [exact Hnl|split; [exact Hd|]].
  exact (delete_person_complete _ 1 _ Hnl Hd).
Defined.

(** C6. [generate_id] is the largest id of the store plus one (1 on the
    empty store), hence above every id present and free; [add_person]
    returns and allocates exactly the id [generate_id] gives before the call. *)
Theorem generate_id_max_plus_one (s : store) :
  (forall r, In r s -> id r < generate_id s) /\
  (s = [] -> generate_id s = 1) /\
  (s <> [] -> exists r, In r s /\ generate_id s = id r + 1 /\
                        forall r', In r' s -> id r' <= id r) /\
  get (generate_id s) s = None /\
  (forall name dob description ps cs,
     fst (add_person name dob description ps cs s) = generate_id s /\
     map id (snd (add_person name dob description ps cs s)) = map id s ++ [generate_id s]).
Proof.
  split; [intros r; apply generate_id_gt|].
  split; [intros ->; reflexivity|].
  split.
  - intros Hne; destruct s as [|r0 s0]; [congruence|].
    unfold generate_id; simpl map.
    destruct (in_map_iff id (r0 :: s0) (fold_left Z.max (map id s0) (id r0))) as [Hm _].
    destruct (Hm (fold_max_in (map id s0) (id r0))) as [r [Hr Hin]].
    exists r; split; [exact Hin|split; [rewrite Hr; reflexivity|]].
    destruct (fold_max_ge (map id s0) (id r0)) as [H1 H2].
    intros r' [<-|Hr']; rewrite Hr; [exact H1|apply H2, in_map, Hr'].
  - split; [apply get_generate_id|].
    intros; split; [reflexivity|apply map_id_add_person].
Qed.

(** Witness for C6, on [family4] (largest id 4). *)
Lemma generate_id_max_plus_one_witness :
  generate_id family4 = 5 /\
  (family4 <> [] -> exists r, In r family4 /\ generate_id family4 = id r + 1 /\
                              forall r', In r' family4 -> id r' <= id r).
Proof.
  split; [reflexivity|].
  exact (proj1 (proj2 (proj2 (generate_id_max_plus_one family4)))).
Defined.

(** C7. For an id no record has, [update_person] and [delete_person]
    return [False] and leave the store as it was. *)
Theorem not_found_fails_unchanged (s : store) (id_ : Z) (kw : kwargs) :
  get id_ s = None ->
  update_person id_ kw s = (false, s) /\ delete_person id_ s = (false, s).
Proof.
  intros E; unfold update_person, delete_person; rewrite E; split; reflexivity.
Qed.

(** Witness for C7: id 9 in [family4]. *)
Lemma not_found_fails_unchanged_witness :
  get 9 family4 = None /\
  update_person 9 all_none family4 = (false, family4) /\ delete_person 9 family4 = (false, family4).
Proof.
  assert (E : get 9 family4 = None) by reflexivity.
  split; [exact E|exact (not_found_fails_unchanged family4 9 all_none E)].
Defined.

(** C8. Within a level [lvl] of [n] ids, the [i]-th id is placed at
    [x = (i - (n-1)/2) * 200], [y = lvl * 200]: one position per id, the
    mean of the x-coordinates is 0 and every y-coordinate is [lvl * 200]. *)
Theorem assign_level_centered (lvl : nat) (ids : list Z) :
  List.length (assign_level lvl ids) = List.length ids /\
  (forall i nid, nth_error ids i = Some nid ->
     nth_error (assign_level lvl ids) i =
     Some (nid, ((inject_Z (Z.of_nat i) - inject_Z (Z.of_nat (List.length ids) - 1) / 2) * 200)%Q,
           Z.of_nat lvl * 200)) /\
  (qsum (map (fun c => snd (fst c)) (assign_level lvl ids)) /
     inject_Z (Z.of_nat (List.length (assign_level lvl ids))) == 0)%Q /\
  Forall (fun c => snd c = Z.of_nat lvl * 200) (assign_level lvl ids).
Proof.
  split; [apply assign_level_length|].
  split.
  { intros i nid H; unfold assign_level.
    rewrite nth_error_map, nth_error_combine_seq, H; reflexivity. }
  split.
  { rewrite assign_level_xs, assign_level_length, qsum_offsets.
    unfold Z.sub; rewrite inject_Z_plus.
    set (N := inject_Z (Z.of_nat (List.length ids))).
    assert (Hz : ((N * (N - 1) / 2 - N * ((N + inject_Z (-1)) / 2)) * x_gap == 0)%Q)
      by (change (inject_Z (-1)) with (-1)%Q; unfold Qdiv; ring).
    rewrite Hz; unfold Qdiv; apply Qmult_0_l. }
  apply Forall_forall; intros c Hc; unfold assign_level in Hc.
  apply in_map_iff in Hc as [[i nid] [<- _]]; reflexivity.
Qed.

(** Witness for C8: the three ids of a level 1 sit at x = -200, 0, 200. *)
Lemma assign_level_centered_witness :
  nth_error [5; 6; 7] 0%nat = Some 5 /\
  nth_error (assign_level 1 [5; 6; 7]) 0%nat =
    Some (5, ((inject_Z (Z.of_nat 0%nat) - inject_Z (Z.of_nat 3%nat - 1) / 2) * 200)%Q, Z.of_nat 1%nat * 200).
Proof.
  split; [reflexivity|].
  exact (proj1 (proj2 (assign_level_centered 1%nat [5; 6; 7])) 0%nat 5 eq_refl).
Defined.

(** C9. On an existing record, [update_person] returns [True]; a keyword
    set to [None] acts as if it were left out; a call with every keyword
    [None] leaves the store as it was; with neither relationship list given
    no [padres] or [hijos] list changes; a scalar keyword set to [None]
    leaves that field of the record unchanged. *)
Theorem update_person_none_is_omitted (s : store) (id_ : Z) (kw : kwargs) :
  get id_ s <> None ->
  let s' := snd (update_person id_ kw s) in
  fst (update_person id_ kw s) = true /\
  update_person id_ kw s = update_person id_ (omit_nones kw) s /\
  update_person id_ all_none s = (true, s) /\
  (supplied (kw_padres kw) = None -> supplied (kw_hijos kw) = None ->
     forall j, option_map rels (get j s') = option_map rels (get j s)) /\
  (kw_nombre kw = PyNone -> option_map nombre (get id_ s') = option_map nombre (get id_ s)) /\
  (kw_fecha_nacimiento kw = PyNone ->
     option_map fecha_nacimiento (get id_ s') = option_map fecha_nacimiento (get id_ s)) /\
  (kw_descripcion kw = PyNone ->
     option_map descripcion (get id_ s') = option_map descripcion (get id_ s)).
Proof.
  intros Hp; cbv zeta.
  destruct (get id_ s) as [p|] eqn:E; [|congruence].
  assert (Hs1 : get id_ (modify id_ (update_scalars kw) s) = Some (update_scalars kw p))
    by (rewrite get_modify by apply id_update_scalars; rewrite Z.eqb_refl, E; reflexivity).
  split; [unfold update_person; rewrite E; reflexivity|].
  split.
  { unfold update_person; rewrite E, update_scalars_omit.
    cbn [omit_nones kw_padres kw_hijos]; rewrite !supplied_omit; reflexivity. }
  split; [unfold update_person; rewrite E, modify_id by apply update_scalars_all_none; reflexivity|].
  split.
  { intros Hsp Hsh j; rewrite update_person_no_links, E by assumption.
    apply rels_modify_scalars. }
  split; [|split].
  - intros Hn; transitivity (option_map nombre (get id_ (modify id_ (update_scalars kw) s))).
    + apply (option_map_scalars_field nombre (fun t => fst (fst t))); [reflexivity|].
      apply scalars_update_person with p; exact E.
    + rewrite Hs1; simpl; rewrite Hn; reflexivity.
  - intros Hn; transitivity (option_map fecha_nacimiento (get id_ (modify id_ (update_scalars kw) s))).
    + apply (option_map_scalars_field fecha_nacimiento (fun t => snd (fst t))); [reflexivity|].
      apply scalars_update_person with p; exact E.
    + rewrite Hs1; simpl; rewrite Hn; reflexivity.
  - intros Hn; transitivity (option_map descripcion (get id_ (modify id_ (update_scalars kw) s))).
    + apply (option_map_scalars_field descripcion (fun t => snd t)); [reflexivity|].
      apply scalars_update_person with p; exact E.
    + rewrite Hs1; simpl; rewrite Hn; reflexivity.
Qed.

(** Witness for C9: every keyword [None] on record 2 of [family4]. *)
Lemma update_person_none_is_omitted_witness :
  get 2 family4 <> None /\ update_person 2 all_none family4 = (true, family4).
Proof.
  assert (Hp : get 2 family4 <> None) by (vm_compute; discriminate).
  split; [exact Hp|].
  exact (proj1 (proj2 (proj2 (update_person_none_is_omitted family4 2 all_none Hp)))).
Defined.

(** C10. [delete_person] removes one occurrence only: each remaining list
    loses the first copy of the id, so with [padres = [1; 1]] deleting 1
    leaves [padres = [1]]. *)
Theorem delete_person_removes_first_occurrence :
  delete_person 1 [person_of 1 "Ana" [] [2]; person_of 2 "Bea" [1; 1] []] =
    (true, [person_of 2 "Bea" [1] []]) /\
  (forall d r, padres (unlink d r) = remove_first d (padres r) /\
               hijos (unlink d r) = remove_first d (hijos r)).
Proof.
  split; [vm_compute; reflexivity|].
  intros d r; split; [exact (field_unlink d r Padres)|exact (field_unlink d r Hijos)].
Qed.

(** ** Further properties of the code *)

(** *** Helpers *)

Lemma in_node_map_present s b : in_node_map s b = true <-> present s b.
Proof.
  unfold in_node_map, present; induction s as [|p s IH]; simpl; [split; congruence|].
  destruct (Z.eqb (id p) b); simpl; [split; congruence|exact IH].
Qed.

Lemma map_id_update_person id_ kw s : map id (snd (update_person id_ kw s)) = map id s.
Proof.
  unfold update_person; destruct (get id_ s) as [p|]; [|reflexivity]; cbv zeta; simpl snd.
  destruct (supplied (kw_hijos kw)), (supplied (kw_padres kw));
    rewrite ?map_id_replace, ?map_id_modify by apply id_update_scalars; reflexivity.
Qed.

Lemma or_zero_some q : (or_zero (Some q) == q)%Q.
Proof.
  unfold or_zero; destruct (Qeq_bool q 0) eqn:E; [|reflexivity].
  apply Qeq_bool_eq in E; rewrite E; reflexivity.
Qed.

(** X1: [get] finds the first record with the id, and nothing iff no record has it. *)
Theorem get_first_match (s : store) (j : Z) :
  (forall r, get j s = Some r ->
     exists pre post, s = pre ++ r :: post /\ id r = j /\ ~ In j (map id pre)) /\
  (get j s = None <-> ~ In j (map id s)).
Proof.
  induction s as [|p s [IH1 IH2]]; simpl.
  - split; [discriminate|tauto].
  - destruct (Z.eqb_spec (id p) j) as [Hj|Hj].
    + split; [intros r E; injection E as <-; exists [], s; simpl; tauto|].
      split; [discriminate|intros H; exfalso; apply H; left; exact Hj].
    + split.
      * intros r E; destruct (IH1 r E) as (pre & post & -> & Hr & Hn).
        exists (p :: pre), post; simpl; split; [reflexivity|split; [exact Hr|]].
        intros [H|H]; [exact (Hj H)|exact (Hn H)].
      * rewrite IH2; split; [intros H [H'|H']; [exact (Hj H')|exact (H H')]|tauto].
Qed.

(** X2: [update_person] never adds, removes or reorders records, so the
    next id [generate_id] gives is unchanged. *)
Theorem update_person_keeps_ids (s : store) (id_ : Z) (kw : kwargs) :
  map id (snd (update_person id_ kw s)) = map id s /\
  generate_id (snd (update_person id_ kw s)) = generate_id s.
Proof.
  rewrite map_id_update_person; split; [reflexivity|].
  unfold generate_id; rewrite map_id_update_person; reflexivity.
Qed.

(** X3: a successful [delete_person d] drops exactly the records of id [d],
    keeps the others in order, and changes in each of them only the
    [padres] and [hijos] lists, from which it removes the first [d]. *)
Theorem delete_person_effect (s : store) (d : Z) :
  get d s <> None ->
  let s' := snd (delete_person d s) in
  map id s' = filter (fun i => negb (Z.eqb i d)) (map id s) /\
  (forall j, get j s' = if Z.eqb j d then None else option_map (unlink d) (get j s)) /\
  (forall r, id (unlink d r) = id r /\ scalars (unlink d r) = scalars r /\
             x (unlink d r) = x r /\ y (unlink d r) = y r).
Proof.
  intros Hp; cbv zeta; unfold delete_person.
  destruct (get d s) as [p|]; [|congruence]; simpl snd.
  split; [|split; [intros j; apply get_delete|]].
  - induction s as [|q s IH]; simpl; [reflexivity|].
    rewrite id_unlink; destruct (Z.eqb (id q) d); simpl; [exact IH|f_equal; [apply id_unlink|exact IH]].
  - intros r; unfold unlink; destruct (mem d (padres r)), (mem d _); repeat split.
Qed.

(** X4: [save_positions] writes to each record whose id is a key of the node
    map the position of its node, changes nothing else, and the next
    [reload_scene] places every such node back at that position. *)
Theorem save_positions_effect (keys : list Z) (pos : Z -> Q * Q) (s : store) :
  NoDup keys ->
  let s' := save_positions keys pos s in
  map id s' = map id s /\
  (forall j, get j s' = if mem j keys then option_map (fun r => set_pos r (pos j)) (get j s)
                        else get j s) /\
  (forall j r, In j keys -> get j s' = Some r ->
     (fst (node_pos r) == fst (pos j))%Q /\ (snd (node_pos r) == snd (pos j))%Q).
Proof.
  intros Hnd; cbv zeta.
  assert (Hstep : forall st k, map id (match get k st with
                   | Some _ => modify k (fun r => set_pos r (pos k)) st | None => st end) = map id st)
    by (intros st k; destruct (get k st); [apply map_id_modify; reflexivity|reflexivity]).
  assert (Hget : forall j, get j (save_positions keys pos s) =
            if mem j keys then option_map (fun r => set_pos r (pos j)) (get j s) else get j s).
  { unfold save_positions; revert s; induction keys as [|k keys IH]; intros s j; simpl; [reflexivity|].
    inversion Hnd as [|? ? Hk Hnd']; subst.
    rewrite (IH Hnd'); clear IH.
    assert (Hs1 : get j (match get k s with
                   | Some _ => modify k (fun r => set_pos r (pos k)) s | None => s end) =
                  if Z.eqb j k then option_map (fun r => set_pos r (pos k)) (get k s) else get j s).
    { destruct (get k s) eqn:E; [rewrite get_modify by reflexivity; rewrite E; reflexivity|].
      destruct (Z.eqb_spec j k) as [->|]; [rewrite E|]; reflexivity. }
    rewrite Hs1; destruct (Z.eqb_spec k j) as [->|Hne]; simpl.
    - rewrite Z.eqb_refl; replace (mem j keys) with false by (symmetry; apply mem_false; exact Hk).
      reflexivity.
    - replace (Z.eqb j k) with false by (symmetry; apply Z.eqb_neq; congruence); reflexivity. }
  split; [unfold save_positions; apply map_id_fold; exact Hstep|].
  split; [exact Hget|].
  intros j r Hj E; rewrite Hget in E; apply mem_In in Hj; rewrite Hj in E.
  destruct (get j s); [|discriminate]; injection E as <-.
  unfold node_pos, set_pos; simpl; split; apply or_zero_some.
Qed.

(** X5: with unique ids, [reload_scene] draws an edge from [a] to [b] exactly
    when [a] lists [b] among its [hijos] and [b] is a record of the store;
    when I1 holds as well, exactly when [b] lists [a] among its [padres]
    and [a] is a record of the store. *)
Theorem scene_edges_links (s : store) (a b : Z) :
  uniq_ids s ->
  (In (a, b) (scene_edges s) <-> linked s Hijos a b /\ present s b) /\
  (I1 s -> (In (a, b) (scene_edges s) <-> linked s Padres b a /\ present s a)).
Proof.
  intros Hu.
  assert (H1 : In (a, b) (scene_edges s) <-> linked s Hijos a b /\ present s b).
  { unfold scene_edges; rewrite in_flat_map; split.
    - intros [p [Hp Hin]]; apply in_map_iff in Hin as [c [E Hc]]; injection E as <- <-.
      apply filter_In in Hc as [Hc Hn]; apply in_node_map_present in Hn.
      split; [exists p; split; [apply get_In; assumption|exact Hc]|exact Hn].
    - intros [[r [E Hr]] Hb]; destruct (get_Some _ _ _ E) as [Ir <-].
      exists r; split; [exact Ir|]; apply in_map_iff; exists b; split; [reflexivity|].
      apply filter_In; split; [exact Hr|apply in_node_map_present, Hb]. }
  split; [exact H1|].
  intros HI; apply (I1_iff _ Hu) in HI; rewrite H1; split.
  - intros [Hl Hb]; assert (Ha : present s a) by (destruct Hl as [r [E _]]; unfold present; congruence).
    split; [apply (HI a b Ha Hb), Hl|exact Ha].
  - intros [Hl Ha]; assert (Hb : present s b) by (destruct Hl as [r [E _]]; unfold present; congruence).
    split; [apply (HI a b Ha Hb), Hl|exact Hb].
Qed.

Lemma get_None_iff s j : get j s = None <-> ~ In j (map id s).
Proof.
  induction s as [|p s IH]; simpl; [tauto|].
  destruct (Z.eqb_spec (id p) j) as [Hj|Hj]; [split; [discriminate|intros H; exfalso; auto]|].
  rewrite IH; split; [intros H [H'|H']; [exact (Hj H')|exact (H H')]|tauto].
Qed.

Lemma unlink_no_ref d r : ~ In d (padres r) -> ~ In d (hijos r) -> unlink d r = r.
Proof.
  intros Hp Hh; unfold unlink.
  apply mem_false in Hp; apply mem_false in Hh; rewrite Hp, Hh; reflexivity.
Qed.

Lemma remove_first_snoc v l : ~ In v l -> remove_first v (l ++ [v]) = l.
Proof.
  induction l as [|a l IH]; simpl; [rewrite Z.eqb_refl; reflexivity|].
  intros H; destruct (Z.eqb_spec a v) as [->|]; [exfalso; auto|].
  rewrite IH by auto; reflexivity.
Qed.

Lemma unlink_append k d q :
  ~ In d (field k q) -> unlink d (set_field k q (field k q ++ [d])) = unlink d q.
Proof.
  intros H; pose proof (remove_first_snoc d _ H) as Hr.
  apply mem_false in H; destruct k, q as [i n f pa hi de px py]; simpl in *; unfold unlink; simpl.
  - assert (M : mem d (pa ++ [d]) = true) by (apply mem_In, in_or_app; right; left; reflexivity).
    rewrite M, H, Hr; simpl; reflexivity.
  - assert (M : mem d (hi ++ [d]) = true) by (apply mem_In, in_or_app; right; left; reflexivity).
    destruct (mem d pa); simpl; rewrite ?M, ?H, ?Hr; simpl; reflexivity.
Qed.

Lemma map_unlink_modify d t f st q :
  get t st = Some q -> unlink d (f q) = unlink d q ->
  map (unlink d) (modify t f st) = map (unlink d) st.
Proof.
  induction st as [|p st IH]; simpl; [discriminate|].
  destruct (Z.eqb (id p) t); cbn [map]; [intros E; injection E as <-; intros H; rewrite H; reflexivity|].
  intros E H; rewrite (IH E H); reflexivity.
Qed.

Lemma map_unlink_add_ref k d st t : map (unlink d) (add_ref k d st t) = map (unlink d) st.
Proof.
  unfold add_ref; destruct (get t st) as [q|] eqn:E; [|reflexivity].
  destruct (mem d (field k q)) eqn:M; simpl; [reflexivity|].
  apply (map_unlink_modify _ _ _ _ q E); cbv beta.
  apply unlink_append, mem_false, M.
Qed.

Lemma map_unlink_fold k d L st :
  map (unlink d) (fold_left (add_ref k d) L st) = map (unlink d) st.
Proof.
  revert st; induction L as [|t L IH]; intros st; simpl; [reflexivity|].
  rewrite IH; apply map_unlink_add_ref.
Qed.

Lemma filter_unlink_keep n l :
  (forall r, In r l -> unlink n r = r /\ negb (Z.eqb (id r) n) = true) ->
  filter (fun q => negb (Z.eqb (id q) n)) (map (unlink n) l) = l.
Proof.
  induction l as [|r l IH]; intros Hs; [reflexivity|]; simpl.
  destruct (Hs r (or_introl eq_refl)) as [-> ->].
  rewrite IH; [reflexivity|intros q Hq; apply Hs; right; exact Hq].
Qed.

Ltac solve_I2 :=
  unfold I2; intros r b Hr Hb; vm_compute in Hr; repeat destruct Hr as [<-|Hr]; try contradiction;
  simpl in Hb; repeat destruct Hb as [<-|Hb]; try contradiction; vm_compute; discriminate.

(** X6: deleting the record [add_person] has just created gives back the
    store as it was before, whatever parent and child lists were passed,
    provided no record of the store lists an id that is not in it. *)
Theorem add_then_delete_restores (s : store) name dob description ps cs :
  I2 s ->
  let r := add_person name dob description ps cs s in
  delete_person (fst r) (snd r) = (true, s).
Proof.
  intros H2; cbv zeta.
  set (n := generate_id s).
  assert (Hfst : fst (add_person name dob description ps cs s) = n) by reflexivity.
  rewrite Hfst; unfold delete_person.
  destruct (get n (snd (add_person name dob description ps cs s))) eqn:E.
  2:{ exfalso; apply get_None_iff in E; apply E.
      rewrite map_id_add_person; apply in_or_app; right; left; reflexivity. }
  f_equal.
  assert (Hs : forall r, In r s -> unlink n r = r /\ negb (Z.eqb (id r) n) = true).
  { intros r Hr; split.
    - apply unlink_no_ref; intros Hin;
        (apply (H2 r n Hr); [apply in_or_app; auto|apply get_generate_id]).
    - apply negb_true_iff, Z.eqb_neq; pose proof (generate_id_gt s r Hr); unfold n; lia. }
  unfold add_person; cbv zeta; simpl snd; fold n.
  rewrite !map_unlink_fold, map_app, filter_app; simpl.
  rewrite id_unlink; simpl; rewrite Z.eqb_refl; simpl; rewrite app_nil_r.
  apply filter_unlink_keep; exact Hs.
Qed.

(** Witness: a record with two parents and one child is added to [family4]
    and deleted again. *)
Lemma add_then_delete_restores_witness :
  I2 family4 /\
  (let r := add_person "Rosa" "" "" (Some [2; 3]) (Some [1]) family4 in
   delete_person (fst r) (snd r) = (true, family4)).
Proof.
  assert (H2 : I2 family4) by solve_I2.
  split; [exact H2|exact (add_then_delete_restores family4 "Rosa" "" "" (Some [2; 3]) (Some [1]) H2)].
Defined.

(** X7: when the new id is in neither list passed, [add_person] stores under
    it a record with the given name, date, description, parent and child
    lists ([[]] for [None]) and no position. *)
Theorem add_person_stores_record (s : store) name dob description ps cs :
  (forall l, ps = Some l -> ~ In (generate_id s) l) ->
  (forall l, cs = Some l -> ~ In (generate_id s) l) ->
  get (generate_id s) (snd (add_person name dob description ps cs s)) =
  Some (mk_person (generate_id s) name dob
          (match ps with Some l => l | None => [] end)
          (match cs with Some l => l | None => [] end) description None None).
Proof.
  intros Hps Hcs; unfold add_person; cbv zeta; simpl snd.
  set (n := generate_id s).
  set (np := match ps with Some l => l | None => [] end).
  set (nc := match cs with Some l => l | None => [] end).
  assert (Hnp : ~ In n np) by (unfold np; destruct ps; [apply Hps; reflexivity|tauto]).
  assert (Hnc : ~ In n nc) by (unfold nc; destruct cs; [apply Hcs; reflexivity|tauto]).
  assert (E1 : get n (s ++ [mk_person n name dob np nc description None None]) =
               Some (mk_person n name dob np nc description None None))
    by (rewrite get_snoc; unfold n; rewrite get_generate_id; simpl; rewrite Z.eqb_refl; reflexivity).
  assert (E2 : get n (fold_left (add_ref Hijos n) np
                 (s ++ [mk_person n name dob np nc description None None])) =
               Some (mk_person n name dob np nc description None None))
    by (rewrite get_fold_add_ref_other by exact Hnp; exact E1).
  simpl padres; rewrite E2; simpl hijos.
  rewrite get_fold_add_ref_other by exact Hnc; exact E2.
Qed.

(** Witness: Rosa, child of 2 and parent of 1, added to [family4] as id 5. *)
Lemma add_person_stores_record_witness :
  generate_id family4 = 5 /\
  get 5 (snd (add_person "Rosa" "1990" "" (Some [2]) (Some [1]) family4)) =
  Some (mk_person 5 "Rosa" "1990" [2] [1] "" None None).
Proof.
  split; [reflexivity|].
  refine (add_person_stores_record family4 "Rosa" "1990" "" (Some [2]) (Some [1]) _ _);
    intros l E; injection E as <-; vm_compute; intros [H|[]]; discriminate.
Defined.

(** *** The "Agregar hijo" action *)

Lemma add_person_no_links name dob description s :
  add_person name dob description None None s =
  (generate_id s, s ++ [mk_person (generate_id s) name dob [] [] description None None]).
Proof.
  unfold add_person; cbv zeta; simpl.
  rewrite get_snoc, get_generate_id; simpl; rewrite Z.eqb_refl; reflexivity.
Qed.

Section AddChild.
Variables (s : store) (pid : Z) (name : string).
Hypotheses (Hpid : present s pid) (H2 : I2_at s).

Let n := generate_id s.
Let c0 := mk_person n name "" [] [] "" None None.
Let s1 := s ++ [c0].
Let s2 := add_ref Hijos n s1 pid.
Let s3 := modify n (fun r => set_field Padres r (padres r ++ [pid])) s2.

Lemma add_child_unfold : add_child pid name s = (n, s3).
Proof.
  unfold add_child; rewrite add_person_no_links; cbv iota beta zeta; fold n c0 s1 s2.
  assert (E : get n s2 = Some c0).
  { unfold s2; rewrite get_add_ref_other.
    - unfold s1; rewrite get_snoc; unfold n at 1; rewrite get_generate_id; simpl.
      rewrite Z.eqb_refl; reflexivity.
    - intros Hn; apply Hpid; rewrite <- Hn; apply get_generate_id. }
  rewrite E; reflexivity.
Qed.

Lemma n_absent : get n s = None.
Proof. apply get_generate_id. Qed.

Lemma pid_ne_n : pid <> n.
Proof. intros ->; exact (Hpid n_absent). Qed.

Lemma get_n_s2 : get n s2 = Some c0.
Proof.
  unfold s2; rewrite get_add_ref_other by exact (not_eq_sym pid_ne_n).
  unfold s1; rewrite get_snoc, n_absent; simpl; rewrite Z.eqb_refl; reflexivity.
Qed.

Lemma present_s3 a : present s3 a <-> present s a \/ a = n.
Proof.
  unfold s3; rewrite present_modify by (intros; apply id_set_field).
  unfold s2; rewrite present_add_ref; unfold s1; apply present_snoc.
Qed.

Lemma linked_s3 k a b :
  linked s3 k a b <->
  linked s k a b \/ (k = Hijos /\ a = pid /\ b = n) \/ (k = Padres /\ a = n /\ b = pid).
Proof.
  assert (Hn : forall k' b', ~ linked s k' n b') by (intros k' b' [r [E _]]; rewrite n_absent in E; discriminate).
  unfold s3; rewrite linked_modify by (intros; apply id_set_field).
  rewrite get_n_s2.
  unfold s2; rewrite linked_add_ref; unfold s1; rewrite linked_snoc by exact n_absent.
  split.
  - intros [[Hne [[H|[_ Hin]]|(-> & -> & -> & _)]]|[-> [r [E H]]]].
    + left; exact H.
    + destruct k; contradiction.
    + right; left; auto.
    + injection E as <-; destruct k; simpl in H; [|contradiction].
      destruct H as [<-|[]]; right; right; auto.
  - intros [H|[(-> & -> & ->)|(-> & -> & ->)]].
    + left; split; [intros ->; exact (Hn _ _ H)|left; left; exact H].
    + left; split; [exact pid_ne_n|right; repeat split].
      apply present_snoc; left; exact Hpid.
    + right; split; [reflexivity|exists c0; split; [reflexivity|simpl; left; reflexivity]].
Qed.

Lemma map_id_s3 : map id s3 = map id s ++ [n].
Proof.
  unfold s3; rewrite map_id_modify by (intros; apply id_set_field).
  unfold s2; rewrite map_id_add_ref; unfold s1; rewrite map_app; reflexivity.
Qed.

Lemma nodup_s3 : nodup_all s -> nodup_all s3.
Proof.
  intros Hnd k a; unfold s3.
  apply nodup_at_modify; [intros; apply id_set_field| |].
  - intros r E _; rewrite get_n_s2 in E; injection E as <-; destruct k; simpl;
      repeat constructor; simpl; tauto.
  - intros Hne; unfold s2; apply nodup_at_add_ref.
    intros r E; unfold s1 in E; rewrite get_snoc in E.
    destruct (get a s) eqn:Ea; [injection E as <-; exact (Hnd k a _ Ea)|].
    destruct (Z.eqb (id c0) a); [injection E as <-; destruct k; constructor|discriminate].
Qed.

Lemma I2_s3 : I2_at s3.
Proof.
  intros k a b Hl; apply linked_s3 in Hl as [H|[(_ & _ & ->)|(_ & _ & ->)]]; apply present_s3.
  - left; exact (H2 _ _ _ H).
  - right; reflexivity.
  - left; exact Hpid.
Qed.

Lemma I1_s3 : I1_at s Hijos -> I1_at s3 Hijos.
Proof.
  intros H1 a b Ha Hb; simpl recip; rewrite !linked_s3.
  assert (Hn1 : forall k b', ~ linked s k n b') by (intros k b' [r [E _]]; rewrite n_absent in E; discriminate).
  assert (Hn2 : forall k a', ~ linked s k a' n) by (intros k a' Hl; exact (H2 _ _ _ Hl n_absent)).
  apply present_s3 in Ha; apply present_s3 in Hb.
  destruct Ha as [Ha| ->]; [destruct Hb as [Hb| ->]|].
  - rewrite (H1 a b Ha Hb); simpl recip; split.
    + intros [H|[(_ & -> & ->)|(Hc & _)]]; [left; exact H|right; right; repeat split|discriminate].
    + intros [H|[(Hc & _)|(_ & -> & ->)]]; [left; exact H|discriminate|right; left; repeat split].
  - split.
    + intros [H|[(_ & -> & _)|(Hc & _)]];
        [exfalso; exact (Hn2 _ _ H)|right; right; repeat split|discriminate].
    + intros [H|[(Hc & _)|(_ & _ & ->)]];
        [exfalso; exact (Hn1 _ _ H)|discriminate|right; left; repeat split].
  - split.
    + intros [H|[(_ & Hc & _)|(Hc & _)]];
        [exfalso; exact (Hn1 _ _ H)|exfalso; exact (pid_ne_n (eq_sym Hc))|discriminate].
    + intros [H|[(Hc & _)|(_ & _ & Hc)]];
        [exfalso; exact (Hn2 _ _ H)|discriminate|exfalso; exact (pid_ne_n (eq_sym Hc))].
Qed.

End AddChild.

Ltac solve_I1 :=
  unfold I1; intros ra rb Ha Hb; vm_compute in Ha, Hb;
  repeat destruct Ha as [<-|Ha]; try contradiction;
  repeat destruct Hb as [<-|Hb]; try contradiction;
  simpl; split; intros H; repeat destruct H as [H|H]; try discriminate; try contradiction;
  auto 10.

Ltac solve_wf :=
  split; [unfold uniq_ids; vm_compute; solve_NoDup|split; [solve_nodup_links|solve_I2]].

(** X8: the "Agregar hijo" action on the node of a record of a well-formed
    store satisfying I1 creates a record under the next id and links it both
    ways to that record and to nothing else; the store stays well formed
    and keeps I1. *)
Theorem add_child_keeps_invariants (s : store) (pid : Z) (name : string) :
  wf s -> I1 s -> get pid s <> None ->
  let r := add_child pid name s in
  fst r = generate_id s /\
  map id (snd r) = map id s ++ [fst r] /\
  (forall k a b, linked (snd r) k a b <->
     linked s k a b \/ (k = Hijos /\ a = pid /\ b = fst r) \/ (k = Padres /\ a = fst r /\ b = pid)) /\
  wf (snd r) /\ I1 (snd r).
Proof.
  intros (Hu & Hn & H2) H1 Hp; cbv zeta.
  apply (I2_iff _ Hu) in H2; apply (nodup_iff _ Hu) in Hn; apply (I1_iff _ Hu) in H1.
  rewrite add_child_unfold by exact Hp; cbn [fst snd].
  assert (Hu3 : uniq_ids (modify (generate_id s)
             (fun r => set_field Padres r (padres r ++ [pid]))
             (add_ref Hijos (generate_id s)
                (s ++ [mk_person (generate_id s) name "" [] [] "" None None]) pid))).
  { unfold uniq_ids; rewrite map_id_s3; apply NoDup_snoc; [exact Hu|].
    apply get_None_iff, get_generate_id. }
  split; [reflexivity|].
  split; [apply map_id_s3|].
  split; [intros k a b; apply linked_s3; exact Hp|].
  split; [split; [exact Hu3|split]|].
  - apply (nodup_iff _ Hu3), nodup_s3; assumption.
  - apply (I2_iff _ Hu3), I2_s3; assumption.
  - apply (I1_iff _ Hu3), I1_s3; assumption.
Qed.

(** Witness: Pedro (id 3) of [family4] gets a new child, id 5. *)
Lemma add_child_keeps_invariants_witness :
  wf family4 /\ I1 family4 /\ get 3 family4 <> None /\
  fst (add_child 3 "Luis" family4) = 5 /\ I1 (snd (add_child 3 "Luis" family4)).
Proof.
  assert (Hw : wf family4) by (unfold family4, person_of; solve_wf).
  assert (H1 : I1 family4) by solve_I1.
  assert (Hp : get 3 family4 <> None) by (vm_compute; discriminate).
  destruct (add_child_keeps_invariants family4 3 "Luis" Hw H1 Hp) as (Hf & _ & _ & _ & HI).
  split; [exact Hw|split; [exact H1|split; [exact Hp|split; [exact Hf|exact HI]]]].
Defined.

(** *** The edit dialog *)

Lemma dialog_candidates_spec pid s b :
  In b (dialog_candidates pid s) -> b <> pid /\ get b s <> None.
Proof.
  unfold dialog_candidates; intros H; apply in_map_iff in H as [q [<- Hq]].
  apply filter_In in Hq as [Hq Hne]; apply negb_true_iff, Z.eqb_neq in Hne.
  split; [exact Hne|]; intros E; apply get_None_iff in E; apply E, in_map, Hq.
Qed.

Lemma update_links_self_view s id_ kw p np nc :
  nodup_all s -> get id_ s = Some p ->
  supplied (kw_padres kw) = Some np -> supplied (kw_hijos kw) = Some nc ->
  ~ In id_ np -> ~ In id_ nc ->
  (forall b, linked (snd (update_person id_ kw s)) Padres id_ b <-> In b np) /\
  (forall b, linked (snd (update_person id_ kw s)) Hijos id_ b <-> In b nc).
Proof.
  intros Hnd E Hsp Hsh Hnp Hnc; unfold update_person.
  destruct (get_Some _ _ _ E) as [_ Hid]; rewrite E, Hid; cbv zeta; simpl snd.
  set (s1 := modify id_ (update_scalars kw) s).
  assert (E1 : get id_ s1 = Some (update_scalars kw p))
    by (unfold s1; rewrite get_modify by apply id_update_scalars; rewrite Z.eqb_refl, E; reflexivity).
  pose proof (nodup_scalars id_ kw s Hnd) as Hnd1; fold s1 in Hnd1.
  split.
  - rewrite Hsp.
    destruct (update_padres_view id_ np (supplied (kw_hijos kw)) s1 _ E1 Hnd1 Hnp)
      as (A1 & _ & _); [intros l E'; rewrite Hsh in E'; injection E' as <-; exact Hnc|exact A1].
  - rewrite Hsh.
    destruct (update_hijos_view id_ (supplied (kw_padres kw)) nc s1 _ E1 Hnd1 Hnc)
      as (B1 & _ & _); [intros l E'; rewrite Hsp in E'; injection E' as <-; exact Hnp|exact B1].
Qed.

(** X9: accepting the edit dialog of a record of a well-formed store
    satisfying I1 sets its name, date and description to the entered texts
    and its parents and children to exactly the selected records, and keeps
    the store well formed and I1: the selectors only offer other records of
    the store, each once. *)
Theorem edit_accept_keeps_invariants (s : store) (pid : Z) (p : person)
    (name dob desc : string) (parents children : list Z) :
  wf s -> I1 s -> get pid s = Some p ->
  NoDup parents -> NoDup children ->
  incl parents (dialog_candidates pid s) -> incl children (dialog_candidates pid s) ->
  let r := edit_accept pid name dob desc parents children s in
  fst r = true /\ wf (snd r) /\ I1 (snd r) /\
  (forall b, linked (snd r) Padres pid b <-> In b parents) /\
  (forall b, linked (snd r) Hijos pid b <-> In b children) /\
  option_map scalars (get pid (snd r)) = Some (name, dob, desc).
Proof.
  intros Hw H1 E Hnp Hnc Hip Hic; cbv zeta; unfold edit_accept.
  assert (Hv : valid_op s (OpUpdate pid
           (mk_kwargs (Given name) (Given dob) (Given desc) (Given parents) (Given children)))).
  { cbv [valid_op opt_ok ids_ok supplied kw_padres kw_hijos].
    split; split; try assumption; intros b Hb; apply dialog_candidates_spec with pid;
      [apply Hip|apply Hic]; exact Hb. }
  set (kw := mk_kwargs (Given name) (Given dob) (Given desc) (Given parents) (Given children)) in *.
  destruct (step_wf s (OpUpdate pid kw) Hw Hv) as [Hw' H1']; simpl in Hw', H1'.
  assert (Hsp : ~ In pid parents) by (intros H; apply (proj1 (dialog_candidates_spec _ _ _ (Hip _ H))); reflexivity).
  assert (Hsc : ~ In pid children) by (intros H; apply (proj1 (dialog_candidates_spec _ _ _ (Hic _ H))); reflexivity).
  destruct Hw as (Hu & Hn & _).
  destruct (update_links_self_view s pid kw p parents children ((proj1 (nodup_iff _ Hu)) Hn) E
              eq_refl eq_refl Hsp Hsc) as [L1 L2].
  split; [unfold update_person; rewrite E; reflexivity|].
  split; [exact Hw'|split; [exact (H1' H1)|split; [exact L1|split; [exact L2|]]]].
  rewrite (scalars_update_person pid kw s p pid E).
  rewrite get_modify by apply id_update_scalars; rewrite Z.eqb_refl, E; reflexivity.
Qed.

(** Witness: Lucas (id 4) of [family4] is given Juana (1) as only parent and
    Pedro (3) as child. *)
Lemma edit_accept_keeps_invariants_witness :
  wf family4 /\ I1 family4 /\ get 4 family4 = Some (person_of 4 "Lucas" [2; 3] []) /\
  NoDup [1] /\ NoDup [3] /\ incl [1] (dialog_candidates 4 family4) /\
  incl [3] (dialog_candidates 4 family4) /\
  I1 (snd (edit_accept 4 "Lucas" "" "" [1] [3] family4)).
Proof.
  assert (Hw : wf family4) by (unfold family4, person_of; solve_wf).
  assert (H1 : I1 family4) by solve_I1.
  assert (E : get 4 family4 = Some (person_of 4 "Lucas" [2; 3] [])) by reflexivity.
  assert (Hp : NoDup [1]) by solve_NoDup.
  assert (Hc : NoDup [3]) by solve_NoDup.
  assert (Ip : incl [1] (dialog_candidates 4 family4))
    by (intros b [<-|[]]; vm_compute; auto).
  assert (Ic : incl [3] (dialog_candidates 4 family4))
    by (intros b [<-|[]]; vm_compute; auto 6).
  destruct (edit_accept_keeps_invariants family4 4 _ "Lucas" "" "" [1] [3] Hw H1 E Hp Hc Ip Ic)
    as (_ & _ & HI & _).
  exact (conj Hw (conj H1 (conj E (conj Hp (conj Hc (conj Ip (conj Ic HI))))))).
Defined.

(** *** The leveling loop of [auto_layout] *)

Section LayoutLoop.
Local Open Scope nat_scope.

Lemma filter_length_mono {A} (P P' : A -> bool) (U : list A) :
  (forall u, In u U -> P' u = true -> P u = true) ->
  List.length (filter P' U) <= List.length (filter P U).
Proof.
  induction U as [|u U IH]; intros H; simpl; [lia|].
  assert (IH' := IH (fun v Hv => H v (or_intror Hv))).
  destruct (P' u) eqn:E1; [rewrite (H u (or_introl eq_refl) E1); simpl; lia|].
  destruct (P u); simpl; lia.
Qed.

Lemma filter_length_lt {A} (P P' : A -> bool) (U : list A) c :
  (forall u, In u U -> P' u = true -> P u = true) ->
  In c U -> P c = true -> P' c = false ->
  List.length (filter P' U) < List.length (filter P U).
Proof.
  induction U as [|u U IH]; intros H Hc Hp Hp'; [destruct Hc|].
  assert (Hm := filter_length_mono P P' U (fun v Hv => H v (or_intror Hv))).
  destruct Hc as [->|Hc]; simpl.
  - rewrite Hp, Hp'; simpl; lia.
  - assert (IH' := IH (fun v Hv => H v (or_intror Hv)) Hc Hp Hp').
    destruct (P' u) eqn:E1; [rewrite (H u (or_introl eq_refl) E1); simpl; lia|].
    destruct (P u); simpl; lia.
Qed.

Lemma filter_length_le {A} (P : A -> bool) (U : list A) : List.length (filter P U) <= List.length U.
Proof. induction U as [|u U IH]; simpl; [lia|destruct (P u); simpl; lia]. Qed.

Lemma fold_next_spec (vis : list Z) (L nl : list Z) c :
  In c (fold_left (fun nl c => if negb (mem c vis) && negb (mem c nl) then nl ++ [c] else nl) L nl) ->
  In c nl \/ (In c L /\ ~ In c vis).
Proof.
  revert nl; induction L as [|a L IH]; intros nl H; simpl in H; [left; exact H|].
  destruct (negb (mem a vis) && negb (mem a nl)) eqn:E; apply IH in H as [H|[H1 H2]];
    try (right; split; [right; exact H1|exact H2]).
  - apply in_app_iff in H as [H|[<-|[]]]; [left; exact H|].
    apply andb_true_iff in E as [E _]; apply negb_true_iff, mem_false in E.
    right; split; [left; reflexivity|exact E].
  - left; exact H.
Qed.

Lemma fold_next_NoDup (vis : list Z) (L nl : list Z) :
  NoDup nl ->
  NoDup (fold_left (fun nl c => if negb (mem c vis) && negb (mem c nl) then nl ++ [c] else nl) L nl).
Proof.
  revert nl; induction L as [|a L IH]; intros nl H; simpl; [exact H|].
  apply IH; destruct (negb (mem a vis) && negb (mem a nl)) eqn:E; [|exact H].
  apply andb_true_iff in E as [_ E]; apply negb_true_iff, mem_false in E.
  apply NoDup_snoc; assumption.
Qed.

Lemma scan_level_spec ch C V nl :
  let r := scan_level ch C V nl in
  fst r = rev C ++ V /\
  (NoDup nl -> NoDup (snd r)) /\
  forall c, In c (snd r) ->
    In c nl \/ (~ In c V /\ exists nid, In nid C /\ In c (dict_get ch nid [])).
Proof.
  revert V nl; induction C as [|nid C IH]; intros V nl; cbv zeta; cbn [scan_level rev].
  - split; [reflexivity|split; [tauto|intros c H; left; exact H]].
  - destruct (IH (nid :: V)
      (fold_left (fun nl c => if negb (mem c (nid :: V)) && negb (mem c nl) then nl ++ [c] else nl)
         (dict_get ch nid []) nl)) as (H1 & H2 & H3).
    split; [rewrite H1, <- app_assoc; reflexivity|].
    split; [intros Hn; apply H2, fold_next_NoDup, Hn|].
    intros c Hc; destruct (H3 c Hc) as [H|[Hv [nid' [Hn' Hc']]]].
    + apply fold_next_spec in H as [H|[H Hv]]; [left; exact H|].
      right; split; [intros H'; apply Hv; right; exact H'|exists nid; split; [left|]; auto].
    + right; split; [intros H'; apply Hv; right; exact H'|exists nid'; split; [right|]; auto].
Qed.

Lemma dict_get_prop {A} (P : A -> Prop) (d : list (Z * A)) k def :
  P def -> (forall kv, In kv d -> P (snd kv)) -> P (dict_get d k def).
Proof.
  unfold dict_get; revert def; induction d as [|kv d IH]; intros def Hd Hkv; simpl; [exact Hd|].
  apply IH; [destruct (Z.eqb (fst kv) k); [apply Hkv; left; reflexivity|exact Hd]|].
  intros kv' H; apply Hkv; right; exact H.
Qed.

Lemma children_in_universe s nid c :
  In c (dict_get (id_to_children s) nid []) -> In c (layout_universe s).
Proof.
  apply (dict_get_prop (fun l => In c l -> In c (layout_universe s))); [intros []|].
  intros kv Hkv Hc; unfold id_to_children in Hkv; apply in_map_iff in Hkv as [p [<- Hp]].
  apply in_or_app; right; apply in_flat_map; exists p; split; assumption.
Qed.

Lemma outside_ext U V V' :
  (forall u, In u V <-> In u V') -> outside U V = outside U V'.
Proof.
  intros H; unfold outside; f_equal; apply filter_ext; intros u.
  destruct (mem u V) eqn:E1, (mem u V') eqn:E2; try reflexivity.
  - apply mem_In, H, mem_In in E1; congruence.
  - apply mem_In, H, mem_In in E2; congruence.
Qed.

Lemma bfs_levels_fuel s f C V :
  (forall c, In c C -> In c (layout_universe s)) ->
  outside (layout_universe s) V + outside (layout_universe s) (C ++ V) < f ->
  bfs_levels f (id_to_children s) C V <> None.
Proof.
  set (U := layout_universe s).
  revert C V; induction f as [|f IH]; intros C V HC Hf; [lia|].
  destruct C as [|c0 C0]; [simpl; discriminate|].
  cbn [bfs_levels].
  destruct (scan_level_spec (id_to_children s) (c0 :: C0) V []) as (H1 & _ & H3).
  destruct (scan_level (id_to_children s) (c0 :: C0) V []) as [V' C'] eqn:Es; simpl in H1, H3.
  assert (HC' : forall c, In c C' -> In c U /\ ~ In c V).
  { intros c Hc; destruct (H3 c Hc) as [[]|[Hv [nid [_ Hn]]]].
    split; [eapply children_in_universe; exact Hn|exact Hv]. }
  destruct C' as [|c1 C1].
  - destruct f; cbn; congruence.
  - assert (Hlt : outside U V' + outside U ((c1 :: C1) ++ V') <
                  outside U V + outside U ((c0 :: C0) ++ V)).
    { assert (E1 : outside U V' = outside U ((c0 :: C0) ++ V)).
      { apply outside_ext; intros u; rewrite H1; change (rev C0 ++ [c0]) with (rev (c0 :: C0)); rewrite !in_app_iff, <- in_rev; tauto. }
      destruct (HC' c1 (or_introl eq_refl)) as [HU Hv].
      assert (E2 : outside U ((c1 :: C1) ++ V') < outside U V).
      { unfold outside; apply filter_length_lt with c1; [|exact HU| |].
        - intros u _ Hu; apply negb_true_iff, mem_false in Hu; apply negb_true_iff, mem_false.
          intros H; apply Hu; rewrite H1; apply in_or_app; right; apply in_or_app; right; exact H.
        - apply negb_true_iff, mem_false, Hv.
        - apply negb_false_iff, mem_In; left; reflexivity. }
      lia. }
    specialize (IH (c1 :: C1) V' (fun c Hc => proj1 (HC' c Hc)) ltac:(lia)).
    destruct (bfs_levels f (id_to_children s) (c1 :: C1) V'); [discriminate|congruence].
Qed.

Lemma roots_in_universe s c : In c (roots s) -> In c (layout_universe s).
Proof.
  unfold roots, layout_universe; intros H; apply in_or_app; left.
  destruct (map id (filter _ s)) eqn:E; [exact H|].
  rewrite <- E in H; apply in_map_iff in H as [p [<- Hp]].
  apply filter_In in Hp as [Hp _]; apply in_map, Hp.
Qed.

(** X10: the leveling loop of [auto_layout] ends on every store, also when
    parent links form cycles, so [auto_layout] always assigns positions. *)
Theorem auto_layout_terminates (s : store) :
  exists levels, layout_levels s = Some levels /\
                 auto_layout s = Some (assign_levels (in_node_map s) 0 levels).
Proof.
  assert (H : layout_levels s <> None).
  { unfold layout_levels, layout_fuel; apply bfs_levels_fuel; [apply roots_in_universe|].
    pose proof (filter_length_le (fun u => negb (mem u [])) (layout_universe s)).
    pose proof (filter_length_le (fun u => negb (mem u (roots s ++ []))) (layout_universe s)).
    unfold outside, layout_universe in *; rewrite length_app, length_map in *; lia. }
  destruct (layout_levels s) as [levels|] eqn:E; [|congruence].
  exists levels; split; [reflexivity|unfold auto_layout; rewrite E; reflexivity].
Qed.

Lemma bfs_levels_structure f ch C V ls :
  bfs_levels f ch C V = Some ls ->
  (C <> [] -> nth_error ls 0 = Some C) /\
  (forall k L, nth_error ls (S k) = Some L ->
     NoDup L /\ exists Lk, nth_error ls k = Some Lk /\
       forall c, In c L -> exists nid, In nid Lk /\ In c (dict_get ch nid [])) /\
  (forall j L c, nth_error ls (S j) = Some L -> In c L -> ~ In c V) /\
  (forall i j Li Lj c, nth_error ls i = Some Li -> nth_error ls j = Some Lj ->
     In c Li -> In c Lj -> i <= j -> j <= S i).
Proof.
  revert C V ls; induction f as [|f IH]; intros C V ls Hb.
  - destruct C; [|discriminate]; injection Hb as <-.
    repeat split; intros; try congruence;
      match goal with H : nth_error [] _ = Some _ |- _ => rewrite nth_error_nil in H; discriminate H end.
  - destruct C as [|c0 C0].
    + injection Hb as <-; repeat split; intros; try congruence;
        match goal with H : nth_error [] _ = Some _ |- _ => rewrite nth_error_nil in H; discriminate H end.
    + cbn [bfs_levels] in Hb.
      destruct (scan_level_spec ch (c0 :: C0) V []) as (H1 & H2 & H3).
      destruct (scan_level ch (c0 :: C0) V []) as [V' C'] eqn:Es; cbn [fst snd] in H1, H2, H3.
      destruct (bfs_levels f ch C' V') as [ls'|] eqn:Eb; [|discriminate].
      injection Hb as <-.
      destruct (IH C' V' ls' Eb) as (J0 & J1 & J2 & J3).
      assert (HV : forall c, In c V -> In c V') by (intros c Hc; rewrite H1; apply in_or_app; right; exact Hc).
      assert (HC : forall c, In c (c0 :: C0) -> In c V')
        by (intros c Hc; rewrite H1; apply in_or_app; left; apply in_rev; rewrite rev_involutive; exact Hc).
      assert (HC'0 : C' <> [] -> nth_error ls' 0 = Some C') by exact J0.
      assert (L1 : forall L, nth_error ls' 0 = Some L -> L = C').
      { intros L HL; destruct C' as [|c' C''].
        - destruct f; cbn in Eb; injection Eb as <-; discriminate.
        - rewrite (J0 ltac:(discriminate)) in HL; congruence. }
      split; [intros _; reflexivity|split; [|split]].
      * intros [|k] L HL; cbn [nth_error] in HL.
        -- apply L1 in HL; subst L; split; [apply H2; constructor|].
           exists (c0 :: C0); split; [reflexivity|].
           intros c Hc; destruct (H3 c Hc) as [[]|[_ Hn]]; exact Hn.
        -- exact (J1 k L HL).
      * intros [|j] L c HL Hc; cbn [nth_error] in HL.
        -- apply L1 in HL; subst L; destruct (H3 c Hc) as [[]|[Hv _]]; exact Hv.
        -- intros Hv; exact (J2 j L c HL Hc (HV c Hv)).
      * intros [|i] [|j] Li Lj c Hi Hj Hci Hcj Hij; cbn [nth_error] in Hi, Hj; try lia.
        -- destruct j as [|j]; [lia|].
           injection Hi as <-; exfalso; exact (J2 j Lj c Hj Hcj (HC c Hci)).
        -- specialize (J3 i j Li Lj c Hi Hj Hci Hcj ltac:(lia)); lia.
Qed.

Lemma dict_get_absent {A} (d : list (Z * A)) k def :
  ~ In k (map fst d) -> dict_get d k def = def.
Proof.
  unfold dict_get; revert def; induction d as [|kv d IH]; intros def H; simpl; [reflexivity|].
  simpl in H; destruct (Z.eqb_spec (fst kv) k); [tauto|].
  apply IH; tauto.
Qed.

Lemma dict_get_children s nid :
  uniq_ids s ->
  dict_get (id_to_children s) nid [] = match get nid s with Some r => hijos r | None => [] end.
Proof.
  unfold uniq_ids, id_to_children; induction s as [|p s IH]; intros Hu; [reflexivity|].
  inversion Hu as [|? ? Hn Hu']; subst; cbn [map].
  change (dict_get ((id p, hijos p) :: map (fun p => (id p, hijos p)) s) nid [])
    with (dict_get (map (fun p => (id p, hijos p)) s) nid (if Z.eqb (id p) nid then hijos p else [])).
  cbn [get]; destruct (Z.eqb_spec (id p) nid) as [<-|Hne].
  - apply dict_get_absent; rewrite map_map; exact Hn.
  - exact (IH Hu').
Qed.

Lemma NoDup_map_id_filter (P : person -> bool) s :
  NoDup (map id s) -> NoDup (map id (filter P s)).
Proof.
  induction s as [|p s IH]; intros H; simpl; [constructor|].
  inversion H as [|? ? Hn H']; subst.
  destruct (P p); simpl; [constructor; [|apply IH, H']|apply IH, H'].
  intros Hin; apply Hn; apply in_map_iff in Hin as [q [Hq Hin]].
  apply filter_In in Hin as [Hin _]; rewrite <- Hq; apply in_map, Hin.
Qed.

Lemma roots_NoDup s : uniq_ids s -> NoDup (roots s).
Proof.
  unfold roots, uniq_ids; intros H.
  pose proof (NoDup_map_id_filter (fun p => match padres p with [] => true | _ => false end) s H) as H'.
  destruct (map id (filter _ s)); [exact H|exact H'].
Qed.

Lemma roots_nonempty s : s <> [] -> roots s <> [].
Proof.
  unfold roots; intros H; destruct (map id (filter _ s)); [|discriminate].
  destruct s; [congruence|discriminate].
Qed.

(** X11: the levels of [auto_layout] start with the roots, hold no id twice,
    and list at each level only children of ids of the previous level; an id
    is placed on at most two levels, and those are consecutive. *)
Theorem auto_layout_levels (s : store) (ls : list (list Z)) :
  uniq_ids s -> layout_levels s = Some ls ->
  (s <> [] -> nth_error ls 0 = Some (roots s)) /\
  (forall k L, nth_error ls k = Some L -> NoDup L) /\
  (forall k L c, nth_error ls (S k) = Some L -> In c L ->
     exists Lk nid, nth_error ls k = Some Lk /\ In nid Lk /\ linked s Hijos nid c) /\
  (forall i j Li Lj c, nth_error ls i = Some Li -> nth_error ls j = Some Lj ->
     In c Li -> In c Lj -> i <= j -> j <= S i).
Proof.
  intros Hu Hl; unfold layout_levels in Hl.
  destruct (bfs_levels_structure _ _ _ _ _ Hl) as (J0 & J1 & _ & J3).
  split; [intros Hs; exact (J0 (roots_nonempty s Hs))|split; [|split; [|exact J3]]].
  - intros [|k] L HL; [|exact (proj1 (J1 k L HL))].
    destruct s as [|p s'].
    + unfold layout_fuel in Hl; cbn in Hl; injection Hl as <-; rewrite nth_error_nil in HL; discriminate HL.
    + rewrite (J0 ltac:(apply roots_nonempty; discriminate)) in HL; injection HL as <-.
      apply roots_NoDup, Hu.
  - intros k L c HL Hc; destruct (J1 k L HL) as [_ [Lk [HLk Hk]]].
    destruct (Hk c Hc) as [nid [Hn Hcn]]; exists Lk, nid; split; [exact HLk|split; [exact Hn|]].
    rewrite dict_get_children in Hcn by exact Hu.
    destruct (get nid s) as [r|] eqn:Eg; [exists r; split; [exact Eg|exact Hcn]|destruct Hcn].
Qed.

End LayoutLoop.

Lemma auto_layout_levels_witness :
  uniq_ids family4 /\ layout_levels family4 = Some [[1; 3]; [2; 4]; [4]] /\
  nth_error [[1; 3]; [2; 4]; [4]] 0 = Some (roots family4) /\
  exists Lk nid, nth_error [[1; 3]; [2; 4]; [4]] 1 = Some Lk /\ In nid Lk /\ linked family4 Hijos nid 4.
Proof.
  assert (Hu : uniq_ids family4) by (unfold uniq_ids; vm_compute; solve_NoDup).
  assert (Hl : layout_levels family4 = Some [[1; 3]; [2; 4]; [4]]) by (vm_compute; reflexivity).
  destruct (auto_layout_levels family4 _ Hu Hl) as (A0 & _ & A2 & _).
  split; [exact Hu|split; [exact Hl|split]].
  - apply A0; discriminate.
  - apply (A2 1%nat [4] 4); [reflexivity|left; reflexivity].
Defined.

Lemma delete_person_effect_witness :
  get 1 family4 <> None /\ map id (snd (delete_person 1 family4)) = [2; 3; 4] /\
  get 2 (snd (delete_person 1 family4)) = option_map (unlink 1) (get 2 family4).
Proof.
  assert (H : get 1 family4 <> None) by (vm_compute; discriminate).
  pose proof (delete_person_effect family4 1 H) as P; cbv zeta in P.
  destruct P as [E [G _]]; split; [exact H|split].
  - rewrite E; vm_compute; reflexivity.
  - rewrite (G 2); reflexivity.
Defined.

Lemma save_positions_effect_witness :
  NoDup [1; 2; 3; 4] /\
  get 2 (save_positions [1; 2; 3; 4] (fun _ => (1#1, 2#1)%Q) family4)
  = option_map (fun r => set_pos r (1#1, 2#1)%Q) (get 2 family4).
Proof.
  assert (H : NoDup [1; 2; 3; 4]) by solve_NoDup.
  pose proof (save_positions_effect [1; 2; 3; 4] (fun _ => (1#1, 2#1)%Q) family4 H) as P.
  cbv zeta in P; destruct P as [_ [G _]]; split; [exact H|].
  rewrite (G 2); reflexivity.
Defined.

Lemma scene_edges_links_witness :
  uniq_ids family4 /\ In (1, 2) (scene_edges family4).
Proof.
  assert (Hu : uniq_ids family4) by (unfold uniq_ids; vm_compute; solve_NoDup).
  split; [exact Hu|].
  apply (proj1 (scene_edges_links family4 1 2 Hu)); split.
  - eexists; split; [reflexivity|left; reflexivity].
  - vm_compute; discriminate.
Defined.
